(** * pratt.c: a toy Pratt (operator-precedence) parser

    A shallow embedding of [src/pratt.c], which turns an infix expression
    made of one-character tokens into its reverse-polish form, and the
    properties of it that the specification states.

    Conventions of the embedding:
    - a C [char] is an [ascii]; the terminator ['\0'] is [NUL];
    - a C string is the list of the characters stored from the pointer on;
      the terminator that follows them is implicit, and a [NUL] stored in the
      list plays the terminator's role as well (the cursor never steps over
      it), so that every list denotes the string [c_str] of it;
    - [panic], which prints a message and exits the process, is the outcome
      [Panic] carrying which of the three messages was printed;
    - the two mutually recursive procedures and the [for (;;)] loop are
      functions over a recursion budget (fuel); a budget linear in the
      length of the input is shown to be always enough, and [parse] runs
      with that budget. *)

From Stdlib Require Import String Ascii List ZArith Lia Bool Arith Permutation.
Import ListNotations.

Local Open Scope char_scope.
Local Open Scope list_scope.

(** * Part I: the program *)

(** ** Utilities *)

(** The three calls of [panic] in the program, by their message:
    ["output overflow"], ["expected '%c', got '%c'"] and
    ["unexpected character: %c"]. *)
Inductive error : Type :=
| OutputOverflow
| TokenMismatch (expected got : ascii)
| UnexpectedToken (ch : ascii).

(** What a procedure of the program does: it returns, or the process exits
    in [panic]; [OutOfFuel] belongs to the model only. *)
Inductive outcome (A : Type) : Type :=
| Done (a : A)
| Panic (e : error)
| OutOfFuel.

Arguments Done {A} a.
Arguments Panic {A} e.
Arguments OutOfFuel {A}.

(** Sequencing: a panic ends the run. *)
Definition bind {A B : Type} (m : outcome A) (k : A -> outcome B) : outcome B :=
  match m with
  | Done a => k a
  | Panic e => Panic e
  | OutOfFuel => OutOfFuel
  end.

Notation "x <- m ;; k" := (bind m (fun x => k))
  (at level 61, m at next level, right associativity).

(** ** Parser *)

(** The terminator of a C string. *)
Definition NUL : ascii := Ascii.zero.

(** Maximum number of characters in output buffer. *)
Definition MAX_OUTPUT : nat := 1024.

(** Parser state.  [input] is what [p->input] points to; [output] is what has
    been written between the start of the buffer and [p->output];
    [output_end] is the offset of [p->output_end] from the start of the
    buffer. *)
Record Parser : Type := mkParser {
  input : list ascii;
  output : list ascii;
  output_end : nat
}.

(** Assignments to [p->input] and through [p->output]. *)
Definition set_input (p : Parser) (i : list ascii) : Parser :=
  mkParser i (output p) (output_end p).

Definition set_output (p : Parser) (o : list ascii) : Parser :=
  mkParser (input p) o (output_end p).

(** Append given character at end of output. *)
Definition emit (p : Parser) (ch : ascii) : outcome Parser :=
  if (length (output p) =? output_end p)%nat then Panic OutputOverflow
  else Done (set_output p (output p ++ [ch])).

(** Look ahead next character from input. *)
Definition peek_next_char (p : Parser) : ascii := hd NUL (input p).

(** Extract next character from input. *)
Definition next_char (p : Parser) : ascii * Parser :=
  let ch := hd NUL (input p) in
  if Ascii.eqb ch NUL then (ch, p) else (ch, set_input p (tl (input p))).

(** Consume next character in input and panic if this is not the expected
    one. *)
Definition expect (p : Parser) (expected : ascii) : outcome Parser :=
  let (got, p') := next_char p in
  if Ascii.eqb got expected then Done p' else Panic (TokenMismatch expected got).

(** [isalpha] of <ctype.h> in the "C" locale, the one the program runs in. *)
Definition isalpha (ch : ascii) : bool :=
  let n := N_of_ascii ch in
  ((65 <=? n) && (n <=? 90) || (97 <=? n) && (n <=? 122))%N.

(** Operator precedence and associativity. *)
Record Operator : Type := mkOperator {
  precedence : Z;
  right_associative : bool
}.

Definition assignment_op : Operator := mkOperator 1 true.
Definition additive_op : Operator := mkOperator 10 false.
Definition multiplicative_op : Operator := mkOperator 20 false.

(** Return characteristics of given operator or [None] if the given character
    is not an operator. *)
Definition operator_info (ch : ascii) : option Operator :=
  if Ascii.eqb ch "=" then Some assignment_op
  else if Ascii.eqb ch "+" || Ascii.eqb ch "-" then Some additive_op
  else if Ascii.eqb ch "*" || Ascii.eqb ch "/" then Some multiplicative_op
  else None.

(** [parse_primary], [parse_expr] and the loop of [parse_expr]. *)
Fixpoint parse_primary (fuel : nat) (p : Parser) : outcome Parser :=
  match fuel with
  | O => OutOfFuel
  | S n =>
      let (ch, p) := next_char p in
      if Ascii.eqb ch "~" then
        p <- parse_primary n p ;;
        emit p "~"
      else if Ascii.eqb ch "(" then
        p <- parse_expr n p 0 ;;
        expect p ")"
      else if isalpha ch then emit p ch
      else Panic (UnexpectedToken ch)
  end

with parse_expr (fuel : nat) (p : Parser) (prec : Z) : outcome Parser :=
  match fuel with
  | O => OutOfFuel
  | S n =>
      p <- parse_primary n p ;;
      parse_expr_loop n p prec
  end

with parse_expr_loop (fuel : nat) (p : Parser) (prec : Z) : outcome Parser :=
  match fuel with
  | O => OutOfFuel
  | S n =>
      let ch := peek_next_char p in
      match operator_info ch with
      | None => Done p
      | Some opi =>
          if (prec >=? precedence opi)%Z then Done p
          else
            let p := snd (next_char p) in
            p <- parse_expr n p
                   (precedence opi - (if right_associative opi then 1 else 0)) ;;
            p <- emit p ch ;;
            parse_expr_loop n p prec
      end
  end.

(** Parser entry point, on a given budget; the result is what has been
    written to the output buffer. *)
Definition parse_with (fuel : nat) (inp : list ascii) : outcome (list ascii) :=
  let parser := mkParser inp [] MAX_OUTPUT in
  p <- parse_expr fuel parser 0 ;;
  p <- expect p NUL ;;
  p <- emit p NUL ;;
  Done (output p).

(** A budget that is enough for an input (lemma [parse_expr_fuel]). *)
Definition fuel_for (inp : list ascii) : nat := 3 * length inp + 2.

(** Parser entry point. *)
Definition parse (inp : list ascii) : outcome (list ascii) :=
  parse_with (fuel_for inp) inp.

(** C string literals. *)
Definition str (s : string) : list ascii := list_ascii_of_string s.

(** The buffer contents that make the C string [s]. *)
Definition terminated (s : string) : list ascii := str s ++ [NUL].

(** ** The procedures on a budget that is always enough *)

(** [parse_primary], [parse_expr] and the loop of [parse_expr] as [parse]
    runs them: on the budget of what is left of the input. *)
Definition do_parse_primary (p : Parser) : outcome Parser :=
  parse_primary (fuel_for (input p)) p.

Definition do_parse_expr (p : Parser) (prec : Z) : outcome Parser :=
  parse_expr (fuel_for (input p)) p prec.

Definition do_parse_expr_loop (p : Parser) (prec : Z) : outcome Parser :=
  parse_expr_loop (fuel_for (input p)) p prec.

(** The floor that [parse_expr] passes to its recursive call. *)
Definition operand_floor (opi : Operator) : Z :=
  precedence opi - (if right_associative opi then 1 else 0).

(** ** The calls of a run *)

(** The calls that a run is made of: [parse_primary], [parse_expr], and an
    iteration of the loop of [parse_expr]. *)
Inductive call : Type :=
| Primary (p : Parser)
| Expr (p : Parser) (prec : Z)
| Loop (p : Parser) (prec : Z).

(** The state a call starts in, and what the call comes to. *)
Definition cursor (c : call) : Parser :=
  match c with Primary p | Expr p _ | Loop p _ => p end.

Definition result (c : call) : outcome Parser :=
  match c with
  | Primary p => do_parse_primary p
  | Expr p prec => do_parse_expr p prec
  | Loop p prec => do_parse_expr_loop p prec
  end.

(** [invokes c c']: the body of [c] makes the call [c'], as the source has
    it: [parse_primary] calls itself after ['~'] and [parse_expr] after
    ['(']; [parse_expr] calls [parse_primary] and, when that returns, enters
    the loop; an iteration at an operator above the floor calls [parse_expr]
    and, when that returns and the operator is emitted, iterates again. *)
Inductive invokes : call -> call -> Prop :=
| invokes_unary p :
    peek_next_char p = "~" ->
    invokes (Primary p) (Primary (snd (next_char p)))
| invokes_group p :
    peek_next_char p = "(" ->
    invokes (Primary p) (Expr (snd (next_char p)) 0)
| invokes_primary p prec :
    invokes (Expr p prec) (Primary p)
| invokes_loop p prec p1 :
    do_parse_primary p = Done p1 ->
    invokes (Expr p prec) (Loop p1 prec)
| invokes_operand p prec opi :
    operator_info (peek_next_char p) = Some opi ->
    (prec < precedence opi)%Z ->
    invokes (Loop p prec) (Expr (snd (next_char p)) (operand_floor opi))
| invokes_again p prec opi p2 p3 :
    operator_info (peek_next_char p) = Some opi ->
    (prec < precedence opi)%Z ->
    do_parse_expr (snd (next_char p)) (operand_floor opi) = Done p2 ->
    emit p2 (peek_next_char p) = Done p3 ->
    invokes (Loop p prec) (Loop p3 prec).

(** The measure that decreases along [invokes]. *)
Definition call_measure (c : call) : nat :=
  match c with
  | Primary p => 3 * length (input p) + 1
  | Expr p _ => 3 * length (input p) + 2
  | Loop p _ => 3 * length (input p) + 1
  end.

(** [reaches c c']: the call [c'] is [c] or is made in the course of [c]. *)
Inductive reaches : call -> call -> Prop :=
| reaches_here c : reaches c c
| reaches_step c c' c'' : invokes c c' -> reaches c' c'' -> reaches c c''.

(** [raises c e]: the body of [c] reaches one of the calls of [panic]; the
    first two in [parse_primary] itself, the third in [expect] called from
    [parse_primary], the others in [emit] called from [parse_primary] and
    from the loop of [parse_expr]. *)
Inductive raises : call -> error -> Prop :=
| raises_unexpected p :
    peek_next_char p <> "~" -> peek_next_char p <> "(" ->
    isalpha (peek_next_char p) = false ->
    raises (Primary p) (UnexpectedToken (peek_next_char p))
| raises_unclosed p p2 :
    peek_next_char p = "(" ->
    do_parse_expr (snd (next_char p)) 0 = Done p2 ->
    peek_next_char p2 <> ")" ->
    raises (Primary p) (TokenMismatch ")" (peek_next_char p2))
| raises_overflow_variable p :
    isalpha (peek_next_char p) = true ->
    length (output p) = output_end p ->
    raises (Primary p) OutputOverflow
| raises_overflow_unary p p2 :
    peek_next_char p = "~" ->
    do_parse_primary (snd (next_char p)) = Done p2 ->
    length (output p2) = output_end p2 ->
    raises (Primary p) OutputOverflow
| raises_overflow_operator p prec opi p2 :
    operator_info (peek_next_char p) = Some opi ->
    (prec < precedence opi)%Z ->
    do_parse_expr (snd (next_char p)) (operand_floor opi) = Done p2 ->
    length (output p2) = output_end p2 ->
    raises (Loop p prec) OutputOverflow.

(** The first call of a run of [parse]. *)
Definition top (inp : list ascii) : call := Expr (mkParser inp [] MAX_OUTPUT) 0.

(** ** Vocabulary of the properties *)

(** The grouping symbols, which are consumed and never emitted. *)
Definition grouping (ch : ascii) : bool := Ascii.eqb ch "(" || Ascii.eqb ch ")".

(** The characters of [consumed] that are emitted. *)
Definition emitted_of (consumed : list ascii) : list ascii :=
  filter (fun ch => negb (grouping ch)) consumed.

(** [run p p' consumed emitted]: from [p] the cursor moved over [consumed]
    and [emitted] was appended to the output, giving [p']. *)
Definition run (p p' : Parser) (consumed emitted : list ascii) : Prop :=
  input p = consumed ++ input p' /\
  output p' = output p ++ emitted /\
  output_end p' = output_end p /\
  ~ In NUL consumed.

(** The C string stored in [inp]: the characters before the first [NUL]. *)
Fixpoint c_str (inp : list ascii) : list ascii :=
  match inp with
  | [] => []
  | c :: rest => if Ascii.eqb c NUL then [] else c :: c_str rest
  end.

(** The variables of the grammar. *)
Definition letters : list ascii :=
  str "ABCDEFGHIJKLMNOPQRSTUVWXYZabcdefghijklmnopqrstuvwxyz".

(** What follows the first operand of [x0 o1 x1 ... on xn]: the pairs
    [(oi, xi)]. *)
Definition infix_chain (links : list (ascii * ascii)) : list ascii :=
  flat_map (fun l => [fst l; snd l]) links.

(** Grouped from the left: [x0 x1 o1 x2 o2 ... xn on]. *)
Definition postfix_left (links : list (ascii * ascii)) : list ascii :=
  flat_map (fun l => [snd l; fst l]) links.

(** Grouped from the right: [x0 x1 ... xn on ... o1]. *)
Definition postfix_right (links : list (ascii * ascii)) : list ascii :=
  map snd links ++ rev (map fst links).

(** A link of a chain: a binary operator of precedence [P] and
    associativity [ra], and a variable. *)
Definition chain_link (P : Z) (ra : bool) (l : ascii * ascii) : Prop :=
  isalpha (snd l) = true /\
  exists opi, operator_info (fst l) = Some opi /\
              precedence opi = P /\ right_associative opi = ra.

(** The state [p] with a buffer of [cap] characters. *)
Definition set_output_end (p : Parser) (cap : nat) : Parser :=
  mkParser (input p) (output p) cap.

(** [parse] as it would be with [MAX_OUTPUT] set to [cap]: it tells what the
    postfix form of an input is when 1024 characters cannot hold it. *)
Definition parse_buffer (cap : nat) (inp : list ascii) : outcome (list ascii) :=
  p <- do_parse_expr (mkParser inp [] cap) 0 ;;
  p <- expect p NUL ;;
  p <- emit p NUL ;;
  Done (output p).

(** The outcome in a buffer of [cap] characters of a run that, in some
    buffer, ends in [p]. *)
Definition capped (cap : nat) (p : Parser) : outcome Parser :=
  if (length (output p) <=? cap)%nat then Done (set_output_end p cap)
  else Panic OutputOverflow.

(** ** Expression trees *)

(** What the grammar of the header comment derives, with [primary ->
    unary_operator primary] as the code has it: variables, ['~'] applied to
    a primary, parenthesized groups and binary operations. *)
Inductive expr : Type :=
| Var (x : ascii)
| Unary (e : expr)
| Group (e : expr)
| Binary (o : ascii) (l r : expr).

(** The expression as it is written in the input. *)
Fixpoint infix (t : expr) : list ascii :=
  match t with
  | Var x => [x]
  | Unary e => "~" :: infix e
  | Group e => "(" :: infix e ++ [")"]
  | Binary o l r => infix l ++ o :: infix r
  end.

(** The expression in reverse-polish notation. *)
Fixpoint postfix (t : expr) : list ascii :=
  match t with
  | Var x => [x]
  | Unary e => postfix e ++ ["~"]
  | Group e => postfix e
  | Binary o l r => postfix l ++ postfix r ++ [o]
  end.

(** The trees that [parse_primary] parses: all but a binary operation
    without parentheses around it. *)
Definition is_primary (t : expr) : bool :=
  match t with Binary _ _ _ => false | _ => true end.

(** [head_ok test t]: when [t] is a binary operation, not parenthesized, its
    operator passes [test]. *)
Definition head_ok (test : Operator -> bool) (t : expr) : bool :=
  match t with
  | Binary o _ _ =>
      match operator_info o with Some opi => test opi | None => false end
  | _ => true
  end.

(** An operation may be the left operand of [opi] when its operator [opi']
    has a higher precedence, or the same and is left-associative; the right
    operand when it has a higher precedence, or the same and [opi] is
    right-associative. *)
Definition heads_left (opi opi' : Operator) : bool :=
  ((precedence opi <? precedence opi') ||
   (precedence opi =? precedence opi') && negb (right_associative opi'))%Z.

Definition heads_right (opi opi' : Operator) : bool :=
  ((precedence opi <? precedence opi') ||
   (precedence opi =? precedence opi') && right_associative opi)%Z.

(** The trees in which every operation is nested as precedence and
    associativity require, ['~'] applies to a primary, variables are letters
    and operators are those of the table. *)
Fixpoint well_formed (t : expr) : bool :=
  match t with
  | Var x => isalpha x
  | Unary e => is_primary e && well_formed e
  | Group e => well_formed e
  | Binary o l r =>
      match operator_info o with
      | None => false
      | Some opi =>
          well_formed l && well_formed r &&
          head_ok (heads_left opi) l && head_ok (heads_right opi) r
      end
  end.

(** The test on which the loop of [parse_expr] returns. *)
Definition stops (prec : Z) (ch : ascii) : bool :=
  match operator_info ch with
  | None => true
  | Some opi => (prec >=? precedence opi)%Z
  end.

(** [above prec t]: the operators down the left spine of [t] are those the
    loop goes on at, with the floor [prec]. *)
Fixpoint above (prec : Z) (t : expr) : bool :=
  match t with
  | Binary o l _ =>
      match operator_info o with
      | None => false
      | Some opi => (prec <? precedence opi)%Z && above prec l
      end
  | _ => true
  end.

(** [closes t next]: the operands down the right spine of [t] end before
    the character [next]. *)
Fixpoint closes (t : expr) (next : ascii) : bool :=
  match t with
  | Binary o _ r =>
      match operator_info o with
      | None => false
      | Some opi => stops (operand_floor opi) next && closes r next
      end
  | _ => true
  end.

(** ** Evaluation on a stack *)

Section Interpretation.

(** The values of an interpretation, and what a variable, ['~'] and the
    binary operators stand for. *)
Variable val : Type.
Variable var : ascii -> val.
Variable un : val -> val.
Variable bin : ascii -> val -> val -> val.

Fixpoint eval (t : expr) : val :=
  match t with
  | Var x => var x
  | Unary e => un (eval e)
  | Group e => eval e
  | Binary o l r => bin o (eval l) (eval r)
  end.

(** A reverse-polish string run on a stack: a variable is pushed, ['~']
    replaces the top, a binary operator replaces the two on top, the first
    operand below the second; anything else, or a missing operand, is an
    error. *)
Fixpoint rpn (code : list ascii) (stack : list val) : option (list val) :=
  match code with
  | [] => Some stack
  | ch :: code' =>
      if isalpha ch then rpn code' (var ch :: stack)
      else if Ascii.eqb ch "~" then
        match stack with
        | v :: s => rpn code' (un v :: s)
        | [] => None
        end
      else
        match operator_info ch, stack with
        | Some _, b :: a :: s => rpn code' (bin ch a b :: s)
        | _, _ => None
        end
  end.

End Interpretation.

(** ** The shape of an input *)

(** The characters of the grammar. *)
Definition token (ch : ascii) : bool :=
  isalpha ch || Ascii.eqb ch "~" || grouping ch ||
  match operator_info ch with Some _ => true | None => false end.

(** The parentheses still open after [inp], read with [depth] of them open;
    [None] when one is closed that was not opened. *)
Fixpoint nesting (inp : list ascii) (depth : nat) : option nat :=
  match inp with
  | [] => Some depth
  | ch :: rest =>
      if Ascii.eqb ch "(" then nesting rest (S depth)
      else if Ascii.eqb ch ")" then
        match depth with
        | O => None
        | S d => nesting rest d
        end
      else nesting rest depth
  end.

(** ** Vocabulary of further properties *)

(** The state [p] with nothing after the terminator. *)
Definition truncate (p : Parser) : Parser := set_input p (c_str (input p)).

(** The outcomes that an error [e] can turn into in another buffer. *)
Definition either (e : error) (r : outcome Parser) : Prop :=
  r = Panic e \/ r = Panic OutputOverflow.

(** The characters of the string still to read that go to the output. *)
Definition pending (p : Parser) : nat := length (emitted_of (c_str (input p))).

(** ** Tests *)









(** * Part II: properties *)

(** ** The test table of [main] *)

(** The inputs that [main] runs, with the outputs it expects. *)
Example test_a : parse (str "a") = Done (terminated "a").
Proof. reflexivity. Qed.

Example test_not : parse (str "~a") = Done (terminated "a~").
Proof. reflexivity. Qed.

Example test_not_not : parse (str "~~a") = Done (terminated "a~~").
Proof. reflexivity. Qed.

Example test_add : parse (str "a+b") = Done (terminated "ab+").
Proof. reflexivity. Qed.

Example test_mul : parse (str "a*b") = Done (terminated "ab*").
Proof. reflexivity. Qed.

Example test_mul_not : parse (str "a*~b") = Done (terminated "ab~*").
Proof. reflexivity. Qed.

Example test_add_add : parse (str "a+b+c") = Done (terminated "ab+c+").
Proof. reflexivity. Qed.

Example test_add_sub : parse (str "a+b-c") = Done (terminated "ab+c-").
Proof. reflexivity. Qed.

Example test_sub_add : parse (str "a-b+c") = Done (terminated "ab-c+").
Proof. reflexivity. Qed.

Example test_mul_mul : parse (str "a*b*c") = Done (terminated "ab*c*").
Proof. reflexivity. Qed.

Example test_assign_assign : parse (str "a=b=c") = Done (terminated "abc==").
Proof. reflexivity. Qed.

Example test_add_mul : parse (str "a+b*c") = Done (terminated "abc*+").
Proof. reflexivity. Qed.

Example test_group : parse (str "(a+b)*c") = Done (terminated "ab+c*").
Proof. reflexivity. Qed.

Example test_mul_add : parse (str "a*b+c") = Done (terminated "ab*c+").
Proof. reflexivity. Qed.

Example test_assign_add : parse (str "a=b+c") = Done (terminated "abc+=").
Proof. reflexivity. Qed.

(** ** Basic facts about the cursor and the output *)

Lemma bind_Done {A B : Type} (m : outcome A) (k : A -> outcome B) (b : B) :
  bind m k = Done b -> exists a, m = Done a /\ k a = Done b.
Proof. destruct m; simpl; intros H; try discriminate. eauto. Qed.

Lemma bind_Panic {A B : Type} (m : outcome A) (k : A -> outcome B) (e : error) :
  bind m k = Panic e ->
  m = Panic e \/ exists a, m = Done a /\ k a = Panic e.
Proof.
  destruct m; simpl; intros H; try discriminate.
  - right. exists a. auto.
  - left. congruence.
Qed.

Lemma bind_fuel {A B : Type} (m : outcome A) (k : A -> outcome B) :
  bind m k <> OutOfFuel -> m <> OutOfFuel.
Proof. destruct m; simpl; congruence. Qed.

Lemma next_char_fst (p : Parser) : fst (next_char p) = peek_next_char p.
Proof. unfold next_char, peek_next_char. destruct (Ascii.eqb _ _); reflexivity. Qed.

(** At the terminator the cursor stays where it is. *)
Lemma next_char_nul (p : Parser) :
  peek_next_char p = NUL -> next_char p = (NUL, p).
Proof. unfold next_char, peek_next_char. intros ->. reflexivity. Qed.

Lemma next_char_cons (p : Parser) (c : ascii) (rest : list ascii) :
  input p = c :: rest -> c <> NUL -> next_char p = (c, set_input p rest).
Proof.
  unfold next_char. intros -> Hc. simpl.
  destruct (Ascii.eqb_spec c NUL); [contradiction | reflexivity].
Qed.

Lemma next_char_cases (p : Parser) :
  (peek_next_char p = NUL /\ next_char p = (NUL, p)) \/
  (exists c rest, c <> NUL /\ input p = c :: rest /\
                  next_char p = (c, set_input p rest)).
Proof.
  destruct (Ascii.eqb_spec (peek_next_char p) NUL) as [E | E].
  - left. auto using next_char_nul.
  - right. unfold peek_next_char in E. destruct (input p) as [| c rest] eqn:Hi.
    + now contradiction E.
    + exists c, rest. auto using next_char_cons.
Qed.

Lemma emit_Done (p p' : Parser) (ch : ascii) :
  emit p ch = Done p' ->
  length (output p) <> output_end p /\ p' = set_output p (output p ++ [ch]).
Proof.
  unfold emit. destruct (Nat.eqb_spec (length (output p)) (output_end p));
    intros H; inversion H; auto.
Qed.

Lemma emit_Panic (p : Parser) (ch : ascii) (e : error) :
  emit p ch = Panic e -> e = OutputOverflow /\ length (output p) = output_end p.
Proof.
  unfold emit. destruct (Nat.eqb_spec (length (output p)) (output_end p));
    intros H; inversion H; auto.
Qed.

Lemma emit_fuel (p : Parser) (ch : ascii) : emit p ch <> OutOfFuel.
Proof. unfold emit. destruct (_ =? _)%nat; discriminate. Qed.

Lemma expect_Done (p p' : Parser) (expected : ascii) :
  expect p expected = Done p' ->
  peek_next_char p = expected /\ p' = snd (next_char p).
Proof.
  unfold expect. rewrite <- next_char_fst. destruct (next_char p) as [got q]. simpl.
  destruct (Ascii.eqb_spec got expected); intros H; inversion H; auto.
Qed.

Lemma expect_Panic (p : Parser) (expected : ascii) (e : error) :
  expect p expected = Panic e ->
  e = TokenMismatch expected (peek_next_char p) /\ peek_next_char p <> expected.
Proof.
  unfold expect. rewrite <- next_char_fst. destruct (next_char p) as [got q]. simpl.
  destruct (Ascii.eqb_spec got expected); intros H; inversion H; auto.
Qed.

Lemma expect_fuel (p : Parser) (expected : ascii) : expect p expected <> OutOfFuel.
Proof.
  unfold expect. destruct (next_char p). destruct (Ascii.eqb _ _); discriminate.
Qed.

(** The three procedures, one level unfolded. *)
Lemma parse_primary_S (n : nat) (p : Parser) :
  parse_primary (S n) p =
  let ch := fst (next_char p) in
  let p1 := snd (next_char p) in
  if Ascii.eqb ch "~" then p2 <- parse_primary n p1 ;; emit p2 "~"
  else if Ascii.eqb ch "(" then p2 <- parse_expr n p1 0 ;; expect p2 ")"
  else if isalpha ch then emit p1 ch
  else Panic (UnexpectedToken ch).
Proof. simpl. destruct (next_char p). reflexivity. Qed.

Lemma parse_expr_S (n : nat) (p : Parser) (prec : Z) :
  parse_expr (S n) p prec = p1 <- parse_primary n p ;; parse_expr_loop n p1 prec.
Proof. reflexivity. Qed.

Lemma parse_expr_loop_S (n : nat) (p : Parser) (prec : Z) :
  parse_expr_loop (S n) p prec =
  let ch := peek_next_char p in
  match operator_info ch with
  | None => Done p
  | Some opi =>
      if (prec >=? precedence opi)%Z then Done p
      else
        p2 <- parse_expr n (snd (next_char p))
                (precedence opi - (if right_associative opi then 1 else 0)) ;;
        p3 <- emit p2 ch ;;
        parse_expr_loop n p3 prec
  end.
Proof. reflexivity. Qed.

(** The five operators, by class. *)
Lemma operator_info_cases (ch : ascii) (opi : Operator) :
  operator_info ch = Some opi ->
  (ch = "=" /\ opi = assignment_op) \/
  ((ch = "+" \/ ch = "-") /\ opi = additive_op) \/
  ((ch = "*" \/ ch = "/") /\ opi = multiplicative_op).
Proof.
  unfold operator_info.
  destruct (Ascii.eqb_spec ch "="); [intros [= <-]; auto |].
  destruct (Ascii.eqb_spec ch "+"); [intros [= <-]; auto |].
  destruct (Ascii.eqb_spec ch "-"); [intros [= <-]; auto |].
  destruct (Ascii.eqb_spec ch "*"); [intros [= <-]; auto |].
  destruct (Ascii.eqb_spec ch "/"); [intros [= <-]; auto |].
  discriminate.
Qed.

(** The terminator is no operator. *)
Lemma operator_info_not_nul (ch : ascii) (opi : Operator) :
  operator_info ch = Some opi -> ch <> NUL.
Proof. intros H ->. discriminate H. Qed.

(** ** The recursion budget *)

(** A run that did not exhaust its budget is unchanged by a larger one. *)
Lemma fuel_stable (n : nat) :
  (forall m p, n <= m -> parse_primary n p <> OutOfFuel ->
               parse_primary m p = parse_primary n p) /\
  (forall m p prec, n <= m -> parse_expr n p prec <> OutOfFuel ->
                    parse_expr m p prec = parse_expr n p prec) /\
  (forall m p prec, n <= m -> parse_expr_loop n p prec <> OutOfFuel ->
                    parse_expr_loop m p prec = parse_expr_loop n p prec).
Proof.
  induction n as [| n (IHp & IHe & IHl)].
  - repeat split; intros; simpl in *; congruence.
  - repeat split.
    + intros [| m] p Hm H; [lia |]. apply le_S_n in Hm.
      rewrite !parse_primary_S in *. cbv zeta in *.
      destruct (Ascii.eqb _ "~").
      { apply bind_fuel in H. now rewrite (IHp m _ Hm H). }
      destruct (Ascii.eqb _ "("); [| reflexivity].
      apply bind_fuel in H. now rewrite (IHe m _ _ Hm H).
    + intros [| m] p prec Hm H; [lia |]. apply le_S_n in Hm.
      rewrite !parse_expr_S in *.
      rewrite (IHp m _ Hm (bind_fuel _ _ H)).
      destruct (parse_primary n p); simpl in *; auto.
    + intros [| m] p prec Hm H; [lia |]. apply le_S_n in Hm.
      rewrite !parse_expr_loop_S in *. cbv zeta in *.
      destruct (operator_info _) as [opi |]; [| reflexivity].
      destruct (prec >=? _)%Z; [reflexivity |].
      rewrite (IHe m _ _ Hm (bind_fuel _ _ H)).
      destruct (parse_expr n _ _); simpl in *; auto.
      destruct (emit _ _); simpl in *; auto.
Qed.

(** ** What a run consumes and emits *)

Lemma run_trans (p q r : Parser) (c1 e1 c2 e2 : list ascii) :
  run p q c1 e1 -> run q r c2 e2 -> run p r (c1 ++ c2) (e1 ++ e2).
Proof.
  intros (Hi & Ho & He & Hn) (Hi' & Ho' & He' & Hn'). repeat split.
  - rewrite Hi, Hi'. now rewrite app_assoc.
  - rewrite Ho', Ho. now rewrite app_assoc.
  - congruence.
  - rewrite in_app_iff. tauto.
Qed.

Lemma run_advance (p : Parser) (c : ascii) (rest : list ascii) :
  input p = c :: rest -> c <> NUL -> run p (set_input p rest) [c] [].
Proof.
  intros Hi Hc. repeat split; simpl; auto.
  - now rewrite app_nil_r.
  - intros [E | []]. auto.
Qed.

Lemma run_emit (p p' : Parser) (ch : ascii) :
  emit p ch = Done p' -> run p p' [] [ch].
Proof. intros H. apply emit_Done in H as [_ ->]. repeat split; simpl; auto. Qed.

Lemma isalpha_not_grouping (ch : ascii) : isalpha ch = true -> grouping ch = false.
Proof.
  intros H. unfold grouping.
  destruct (Ascii.eqb_spec ch "(") as [-> | _]; [discriminate H |].
  destruct (Ascii.eqb_spec ch ")") as [-> | _]; [discriminate H | reflexivity].
Qed.

Lemma operator_not_grouping (ch : ascii) (opi : Operator) :
  operator_info ch = Some opi -> grouping ch = false.
Proof.
  intros H. unfold grouping.
  destruct (Ascii.eqb_spec ch "(") as [-> | _]; [discriminate H |].
  destruct (Ascii.eqb_spec ch ")") as [-> | _]; [discriminate H | reflexivity].
Qed.

(** At the terminator the primary parser panics without moving the
    cursor and without calling itself or [parse_expr]. *)
Lemma parse_primary_nul (n : nat) (p : Parser) :
  peek_next_char p = NUL -> parse_primary (S n) p = Panic (UnexpectedToken NUL).
Proof. intros H. rewrite parse_primary_S, (next_char_nul p H). reflexivity. Qed.

Lemma emitted_of_app (l1 l2 : list ascii) :
  emitted_of (l1 ++ l2) = emitted_of l1 ++ emitted_of l2.
Proof. apply filter_app. Qed.

Lemma emitted_of_keep (ch : ascii) (l : list ascii) :
  grouping ch = false -> emitted_of (ch :: l) = ch :: emitted_of l.
Proof. intros H. unfold emitted_of. simpl. now rewrite H. Qed.

Lemma parse_run (n : nat) :
  (forall p p', parse_primary n p = Done p' ->
     exists consumed emitted,
       run p p' consumed emitted /\ consumed <> [] /\
       Permutation emitted (emitted_of consumed)) /\
  (forall p prec p', parse_expr n p prec = Done p' ->
     exists consumed emitted,
       run p p' consumed emitted /\ consumed <> [] /\
       Permutation emitted (emitted_of consumed)) /\
  (forall p prec p', parse_expr_loop n p prec = Done p' ->
     exists consumed emitted,
       run p p' consumed emitted /\
       Permutation emitted (emitted_of consumed)).
Proof.
  induction n as [| n (IHp & IHe & IHl)].
  - repeat split; intros; discriminate.
  - repeat split.
    + intros p p' H.
      destruct (next_char_cases p) as [[Hpk _] | (c & rest & Hc & Hin & Hnc)].
      { rewrite (parse_primary_nul n p Hpk) in H. discriminate. }
      rewrite parse_primary_S, Hnc in H. cbn [fst snd] in H. cbv zeta in H.
      pose proof (run_advance p c rest Hin Hc) as R0.
      destruct (Ascii.eqb_spec c "~") as [-> | _].
      { apply bind_Done in H as (p2 & H1 & H2).
        apply IHp in H1 as (c1 & e1 & R1 & _ & P1).
        exists ("~" :: c1 ++ []), (e1 ++ ["~"]). split; [| split].
        - apply (run_trans _ _ _ _ _ _ _ R0).
          apply (run_trans _ _ _ _ _ _ _ R1). now apply run_emit.
        - discriminate.
        - rewrite app_nil_r, emitted_of_keep by reflexivity.
          rewrite <- Permutation_cons_append. now constructor. }
      destruct (Ascii.eqb_spec c "(") as [-> | _].
      { apply bind_Done in H as (p2 & H1 & H2).
        apply IHe in H1 as (c1 & e1 & R1 & _ & P1).
        apply expect_Done in H2 as [Hpk ->].
        destruct (next_char_cases p2) as [[Hpk' _] | (c' & rest' & Hc' & Hin' & Hnc')].
        { rewrite Hpk in Hpk'. discriminate. }
        rewrite Hnc'. cbn [snd].
        assert (c' = ")") as -> by (unfold peek_next_char in Hpk; now rewrite Hin' in Hpk).
        exists ("(" :: c1 ++ [")"]), ([] ++ e1 ++ []). split; [| split].
        - apply (run_trans _ _ _ _ _ _ _ R0).
          apply (run_trans _ _ _ _ _ _ _ R1). now apply run_advance.
        - discriminate.
        - simpl. change ("(" :: c1 ++ [")"]) with (["("] ++ c1 ++ [")"]).
          rewrite !emitted_of_app, app_nil_r. simpl. now rewrite app_nil_r. }
      destruct (isalpha c) eqn:Ha; [| discriminate].
      exists ([c] ++ []), ([] ++ [c]). split; [| split].
      * apply (run_trans _ _ _ _ _ _ _ R0). now apply run_emit.
      * discriminate.
      * cbn [app]. rewrite emitted_of_keep by now apply isalpha_not_grouping.
        reflexivity.
    + intros p prec p' H. rewrite parse_expr_S in H.
      apply bind_Done in H as (p1 & H1 & H2).
      apply IHp in H1 as (c1 & e1 & R1 & N1 & P1).
      apply IHl in H2 as (c2 & e2 & R2 & P2).
      exists (c1 ++ c2), (e1 ++ e2). split; [| split].
      * eapply run_trans; eauto.
      * destruct c1; [congruence | discriminate].
      * rewrite emitted_of_app. now apply Permutation_app.
    + intros p prec p' H. rewrite parse_expr_loop_S in H. cbv zeta in H.
      assert (R : run p p [] []).
      { repeat split; auto. now rewrite app_nil_r. }
      destruct (operator_info (peek_next_char p)) as [opi |] eqn:Hop.
      2:{ inversion H; subst. exists [], []. split; [exact R | constructor]. }
      destruct (prec >=? precedence opi)%Z.
      { inversion H; subst. exists [], []. split; [exact R | constructor]. }
      apply bind_Done in H as (p2 & H1 & H2).
      apply bind_Done in H2 as (p3 & H2 & H3).
      pose proof (operator_info_not_nul _ _ Hop) as Hnul.
      destruct (next_char_cases p) as [[Hpk _] | (c & rest & Hc & Hin & Hnc)];
        [contradiction |].
      rewrite Hnc in H1. cbn [snd] in H1.
      assert (peek_next_char p = c) as Hpk by (unfold peek_next_char; now rewrite Hin).
      rewrite Hpk in *.
      apply IHe in H1 as (c1 & e1 & R1 & _ & P1).
      apply IHl in H3 as (c3 & e3 & R3 & P3).
      exists ([c] ++ c1 ++ [] ++ c3), ([] ++ e1 ++ [c] ++ e3). split.
      * apply (run_trans _ _ _ _ _ _ _ (run_advance p c rest Hin Hc)).
        apply (run_trans _ _ _ _ _ _ _ R1).
        apply (run_trans _ _ _ _ _ _ _ (run_emit _ _ _ H2)). exact R3.
      * cbn [app]. rewrite emitted_of_keep by (eapply operator_not_grouping; eauto).
        rewrite emitted_of_app. rewrite <- Permutation_middle. constructor.
        now apply Permutation_app.
Qed.

Lemma run_length (p p' : Parser) (consumed emitted : list ascii) :
  run p p' consumed emitted ->
  length (input p) = length consumed + length (input p') /\
  length (output p') = length (output p) + length emitted.
Proof. intros (Hi & Ho & _). now rewrite Hi, Ho, !length_app. Qed.

(** A successful primary expression, and so a successful expression, moves
    the cursor forward; the loop never moves it backward. *)
Lemma parse_primary_consumes (n : nat) (p p' : Parser) :
  parse_primary n p = Done p' -> length (input p') < length (input p).
Proof.
  intros H. apply (proj1 (parse_run n)) in H as (c & e & R & N & _).
  apply run_length in R as [R _]. destruct c; [congruence | simpl in R; lia].
Qed.

Lemma parse_expr_consumes (n : nat) (p p' : Parser) (prec : Z) :
  parse_expr n p prec = Done p' -> length (input p') < length (input p).
Proof.
  intros H. apply (proj1 (proj2 (parse_run n))) in H as (c & e & R & N & _).
  apply run_length in R as [R _]. destruct c; [congruence | simpl in R; lia].
Qed.

Lemma parse_expr_loop_consumes (n : nat) (p p' : Parser) (prec : Z) :
  parse_expr_loop n p prec = Done p' -> length (input p') <= length (input p).
Proof.
  intros H. apply (proj2 (proj2 (parse_run n))) in H as (c & e & R & _).
  apply run_length in R as [R _]. lia.
Qed.

(** A budget linear in the length of the remaining input is never
    exhausted. *)
Lemma fuel_enough (n : nat) :
  (forall p, 3 * length (input p) + 1 <= n -> parse_primary n p <> OutOfFuel) /\
  (forall p prec, 3 * length (input p) + 2 <= n ->
                  parse_expr n p prec <> OutOfFuel) /\
  (forall p prec, 3 * length (input p) + 1 <= n ->
                  parse_expr_loop n p prec <> OutOfFuel).
Proof.
  induction n as [| n (IHp & IHe & IHl)].
  - repeat split; intros; lia.
  - repeat split.
    + intros p Hn.
      destruct (next_char_cases p) as [[Hpk _] | (c & rest & Hc & Hin & Hnc)].
      { rewrite (parse_primary_nul n p Hpk). discriminate. }
      rewrite parse_primary_S, Hnc. cbn [fst snd]. cbv zeta.
      rewrite Hin in Hn. cbn [length] in Hn.
      destruct (Ascii.eqb c "~").
      { destruct (parse_primary n _) eqn:E; cbn [bind];
          [apply emit_fuel | discriminate |].
        apply IHp in E; [contradiction | simpl; lia]. }
      destruct (Ascii.eqb c "(").
      { destruct (parse_expr n _ _) eqn:E; cbn [bind];
          [apply expect_fuel | discriminate |].
        apply IHe in E; [contradiction | simpl; lia]. }
      destruct (isalpha c); [apply emit_fuel | discriminate].
    + intros p prec Hn. rewrite parse_expr_S.
      destruct (parse_primary n p) as [p1 | |] eqn:E; cbn [bind];
        [| discriminate | apply IHp in E; [contradiction | lia]].
      apply parse_primary_consumes in E. apply IHl. lia.
    + intros p prec Hn. rewrite parse_expr_loop_S. cbv zeta.
      destruct (operator_info _) as [opi |] eqn:Hop; [| discriminate].
      destruct (prec >=? _)%Z; [discriminate |].
      destruct (next_char_cases p) as [[Hpk _] | (c & rest & Hc & Hin & Hnc)].
      { now apply operator_info_not_nul in Hop. }
      rewrite Hnc. cbn [snd]. rewrite Hin in Hn. cbn [length] in Hn.
      destruct (parse_expr n _ _) as [p2 | |] eqn:E; cbn [bind];
        [| discriminate | apply IHe in E; [contradiction | simpl; lia]].
      apply parse_expr_consumes in E. simpl in E.
      destruct (emit p2 _) as [p3 | |] eqn:E3; cbn [bind];
        [| discriminate | now apply emit_fuel in E3].
      apply emit_Done in E3 as [_ ->]. apply IHl. simpl. lia.
Qed.

Lemma parse_expr_fuel (p : Parser) (prec : Z) :
  parse_expr (fuel_for (input p)) p prec <> OutOfFuel.
Proof. apply fuel_enough. unfold fuel_for. lia. Qed.

Lemma parse_with_fuel (n : nat) (inp : list ascii) :
  fuel_for inp <= n -> parse_with n inp = parse inp.
Proof.
  intros Hn. unfold parse, parse_with.
  rewrite (proj1 (proj2 (fuel_stable (fuel_for inp))) n); auto.
  apply (parse_expr_fuel (mkParser inp [] MAX_OUTPUT)).
Qed.

(** ** The procedures without their budget *)

Lemma do_parse_primary_eq (n : nat) (p : Parser) :
  3 * length (input p) + 1 <= n -> parse_primary n p = do_parse_primary p.
Proof.
  intros Hn. unfold do_parse_primary.
  pose proof (proj1 (fuel_enough _) p (le_n _)) as F.
  pose proof (proj1 (fuel_stable (3 * length (input p) + 1))) as St.
  rewrite (St n p Hn F). symmetry. apply St; [unfold fuel_for; lia | exact F].
Qed.

Lemma do_parse_expr_eq (n : nat) (p : Parser) (prec : Z) :
  3 * length (input p) + 2 <= n -> parse_expr n p prec = do_parse_expr p prec.
Proof.
  intros Hn. unfold do_parse_expr.
  apply (proj1 (proj2 (fuel_stable _))); [exact Hn | apply parse_expr_fuel].
Qed.

Lemma do_parse_expr_loop_eq (n : nat) (p : Parser) (prec : Z) :
  3 * length (input p) + 1 <= n ->
  parse_expr_loop n p prec = do_parse_expr_loop p prec.
Proof.
  intros Hn. unfold do_parse_expr_loop.
  pose proof (proj2 (proj2 (fuel_enough _)) p prec (le_n _)) as F.
  pose proof (proj2 (proj2 (fuel_stable (3 * length (input p) + 1)))) as St.
  rewrite (St n p prec Hn F). symmetry.
  apply St; [unfold fuel_for; lia | exact F].
Qed.

Lemma parse_do_parse_expr (inp : list ascii) :
  parse inp =
  p <- do_parse_expr (mkParser inp [] MAX_OUTPUT) 0 ;;
  p <- expect p NUL ;;
  p <- emit p NUL ;;
  Done (output p).
Proof. reflexivity. Qed.

(** [parse_expr]: one primary expression, then the loop. *)
Lemma do_parse_expr_unfold (p : Parser) (prec : Z) :
  do_parse_expr p prec = p1 <- do_parse_primary p ;; do_parse_expr_loop p1 prec.
Proof.
  unfold do_parse_expr, fuel_for. rewrite Nat.add_succ_r, parse_expr_S.
  rewrite do_parse_primary_eq by lia.
  destruct (do_parse_primary p) as [p1 | |] eqn:E; cbn [bind]; auto.
  apply do_parse_expr_loop_eq.
  apply parse_primary_consumes in E. lia.
Qed.

(** The loop stops, leaving the state as it is, at a character that is not
    an operator. *)
Lemma do_parse_expr_loop_other (p : Parser) (prec : Z) :
  operator_info (peek_next_char p) = None -> do_parse_expr_loop p prec = Done p.
Proof.
  intros H. unfold do_parse_expr_loop, fuel_for.
  rewrite Nat.add_succ_r, parse_expr_loop_S. cbv zeta. now rewrite H.
Qed.

(** The loop stops, leaving the state as it is, at an operator whose
    precedence does not exceed the floor. *)
Lemma do_parse_expr_loop_low (p : Parser) (prec : Z) (opi : Operator) :
  operator_info (peek_next_char p) = Some opi -> (precedence opi <= prec)%Z ->
  do_parse_expr_loop p prec = Done p.
Proof.
  intros H Hle. unfold do_parse_expr_loop, fuel_for.
  rewrite Nat.add_succ_r, parse_expr_loop_S. cbv zeta. rewrite H.
  destruct (Z.geb_spec prec (precedence opi)); [reflexivity | lia].
Qed.

(** The loop at an operator above the floor: the operator is consumed, the
    right operand is parsed, the operator is emitted, and the loop goes on. *)
Lemma do_parse_expr_loop_high (p : Parser) (prec : Z) (opi : Operator) :
  operator_info (peek_next_char p) = Some opi -> (prec < precedence opi)%Z ->
  do_parse_expr_loop p prec =
  p2 <- do_parse_expr (set_input p (tl (input p))) (operand_floor opi) ;;
  p3 <- emit p2 (peek_next_char p) ;;
  do_parse_expr_loop p3 prec.
Proof.
  intros H Hlt. unfold do_parse_expr_loop at 1. unfold fuel_for.
  rewrite Nat.add_succ_r, parse_expr_loop_S. cbv zeta. rewrite H.
  destruct (Z.geb_spec prec (precedence opi)); [lia |].
  destruct (next_char_cases p) as [[Hpk _] | (c & rest & Hc & Hin & Hnc)].
  { now apply operator_info_not_nul in H. }
  rewrite Hnc, Hin. cbn [snd tl length]. fold (operand_floor opi).
  rewrite do_parse_expr_eq by (simpl; lia).
  destruct (do_parse_expr _ _) as [p2 | |] eqn:E; cbn [bind]; auto.
  destruct (emit p2 _) as [p3 | |] eqn:E3; cbn [bind]; auto.
  apply do_parse_expr_loop_eq.
  apply parse_expr_consumes in E. apply emit_Done in E3 as [_ ->].
  simpl in *. lia.
Qed.

(** The primary parser, by the character under the cursor. *)
Lemma do_parse_primary_unary (p : Parser) :
  peek_next_char p = "~" ->
  do_parse_primary p =
  p2 <- do_parse_primary (set_input p (tl (input p))) ;; emit p2 "~".
Proof.
  intros H. unfold do_parse_primary at 1. unfold fuel_for.
  rewrite Nat.add_succ_r, parse_primary_S. cbv zeta.
  destruct (next_char_cases p) as [[Hpk _] | (c & rest & Hc & Hin & Hnc)].
  { rewrite H in Hpk. discriminate. }
  rewrite Hnc, Hin. cbn [fst snd tl length].
  assert (c = "~") as -> by (unfold peek_next_char in H; now rewrite Hin in H).
  cbn [Ascii.eqb Bool.eqb]. now rewrite do_parse_primary_eq by (simpl; lia).
Qed.

Lemma do_parse_primary_group (p : Parser) :
  peek_next_char p = "(" ->
  do_parse_primary p =
  p2 <- do_parse_expr (set_input p (tl (input p))) 0 ;; expect p2 ")".
Proof.
  intros H. unfold do_parse_primary at 1. unfold fuel_for.
  rewrite Nat.add_succ_r, parse_primary_S. cbv zeta.
  destruct (next_char_cases p) as [[Hpk _] | (c & rest & Hc & Hin & Hnc)].
  { rewrite H in Hpk. discriminate. }
  rewrite Hnc, Hin. cbn [fst snd tl length].
  assert (c = "(") as -> by (unfold peek_next_char in H; now rewrite Hin in H).
  cbn [Ascii.eqb Bool.eqb]. now rewrite do_parse_expr_eq by (simpl; lia).
Qed.

Lemma isalpha_not_special (ch : ascii) :
  isalpha ch = true ->
  ch <> NUL /\ Ascii.eqb ch "~" = false /\ Ascii.eqb ch "(" = false /\
  operator_info ch = None.
Proof.
  intros H. repeat split.
  - intros ->. discriminate H.
  - destruct (Ascii.eqb_spec ch "~") as [-> | _]; [discriminate H | reflexivity].
  - destruct (Ascii.eqb_spec ch "(") as [-> | _]; [discriminate H | reflexivity].
  - unfold operator_info.
    destruct (Ascii.eqb_spec ch "=") as [-> | _]; [discriminate H |].
    destruct (Ascii.eqb_spec ch "+") as [-> | _]; [discriminate H |].
    destruct (Ascii.eqb_spec ch "-") as [-> | _]; [discriminate H |].
    destruct (Ascii.eqb_spec ch "*") as [-> | _]; [discriminate H |].
    destruct (Ascii.eqb_spec ch "/") as [-> | _]; [discriminate H | reflexivity].
Qed.

Lemma do_parse_primary_variable (p : Parser) :
  isalpha (peek_next_char p) = true ->
  do_parse_primary p = emit (set_input p (tl (input p))) (peek_next_char p).
Proof.
  intros H. unfold do_parse_primary, fuel_for.
  rewrite Nat.add_succ_r, parse_primary_S. cbv zeta.
  destruct (isalpha_not_special _ H) as (Hnul & Ht & Hg & _).
  destruct (next_char_cases p) as [[Hpk _] | (c & rest & Hc & Hin & Hnc)].
  { contradiction. }
  rewrite Hnc, Hin. cbn [fst snd tl].
  assert (peek_next_char p = c) as E by (unfold peek_next_char; now rewrite Hin).
  rewrite E in *. now rewrite Ht, Hg, H.
Qed.

Lemma do_parse_primary_other (p : Parser) :
  let ch := peek_next_char p in
  ch <> "~" -> ch <> "(" -> isalpha ch = false ->
  do_parse_primary p = Panic (UnexpectedToken ch).
Proof.
  intros ch Ht Hg Ha. unfold do_parse_primary, fuel_for.
  rewrite Nat.add_succ_r, parse_primary_S. cbv zeta.
  rewrite next_char_fst. fold ch.
  destruct (Ascii.eqb_spec ch "~"); [contradiction |].
  destruct (Ascii.eqb_spec ch "("); [contradiction |].
  now rewrite Ha.
Qed.

(** ** The precedence climber *)

(** C1.  A call of the precedence climber with floor [f] parses one primary
    expression and then loops.  The loop looks at the next token without
    consuming it: when the token is no binary operator, or is one whose
    precedence is at most [f], the loop returns the state unchanged;
    otherwise the operator is consumed, the climber is called on what follows
    with the floor [precedence - 1] for a right-associative operator and
    [precedence] for a left-associative one, the operator is emitted right
    after what that call emitted, and the loop goes on with the same [f]. *)
Theorem parse_expr_climbs (p : Parser) (f : Z) :
  do_parse_expr p f = (p1 <- do_parse_primary p ;; do_parse_expr_loop p1 f) /\
  let ch := peek_next_char p in
  match operator_info ch with
  | None => do_parse_expr_loop p f = Done p
  | Some opi =>
      if (precedence opi <=? f)%Z then do_parse_expr_loop p f = Done p
      else
        let floor :=
          if right_associative opi then (precedence opi - 1)%Z
          else precedence opi in
        exists rest,
          input p = ch :: rest /\
          snd (next_char p) = set_input p rest /\
          do_parse_expr_loop p f =
            (p2 <- do_parse_expr (set_input p rest) floor ;;
             p3 <- emit p2 ch ;;
             do_parse_expr_loop p3 f) /\
          forall p2 p3, emit p2 ch = Done p3 ->
            input p3 = input p2 /\ output p3 = output p2 ++ [ch]
  end.
Proof.
  split; [apply do_parse_expr_unfold |]. cbv zeta.
  destruct (operator_info (peek_next_char p)) as [opi |] eqn:Hop.
  2:{ now apply do_parse_expr_loop_other. }
  destruct (Z.leb_spec (precedence opi) f) as [Hle | Hlt].
  { now apply do_parse_expr_loop_low with opi. }
  destruct (next_char_cases p) as [[Hpk _] | (c & rest & Hc & Hin & Hnc)].
  { now apply operator_info_not_nul in Hop. }
  exists rest.
  assert (peek_next_char p = c) as E by (unfold peek_next_char; now rewrite Hin).
  rewrite Hnc. repeat split.
  - now rewrite E.
  - rewrite (do_parse_expr_loop_high p f opi Hop Hlt), Hin. cbn [tl].
    unfold operand_floor. destruct (right_associative opi); [reflexivity |].
    now rewrite Z.sub_0_r.
  - apply emit_Done in H as [_ ->]. reflexivity.
  - apply emit_Done in H as [_ ->]. reflexivity.
Qed.

(** ** The operator table *)

(** C2.  [operator_info] knows the five symbols [+ - * / =] and nothing else;
    [=] has precedence 1 and is right-associative, [+] and [-] have
    precedence 10 and [*] and [/] precedence 20, all four left-associative;
    so [=] is strictly the lowest, and two operators of different precedence
    are never one apart. *)
Theorem operator_info_table :
  (forall ch, operator_info ch <> None <-> In ch ["+"; "-"; "*"; "/"; "="]) /\
  operator_info "=" = Some (mkOperator 1 true) /\
  operator_info "+" = Some (mkOperator 10 false) /\
  operator_info "-" = Some (mkOperator 10 false) /\
  operator_info "*" = Some (mkOperator 20 false) /\
  operator_info "/" = Some (mkOperator 20 false) /\
  (forall ch opi, operator_info ch = Some opi -> ch <> "=" ->
                  (precedence assignment_op < precedence opi)%Z) /\
  (forall c1 c2 o1 o2,
      operator_info c1 = Some o1 -> operator_info c2 = Some o2 ->
      (precedence o1 < precedence o2)%Z ->
      (precedence o1 + 1 < precedence o2)%Z).
Proof.
  pose proof operator_info_cases as T.
  repeat split; try reflexivity.
  - intros H. destruct (operator_info ch) as [opi |] eqn:E; [| contradiction].
    apply T in E. simpl. intuition.
  - simpl. intros [<- | [<- | [<- | [<- | [<- | []]]]]]; discriminate.
  - intros ch opi H Hne. apply T in H as [[-> _] | [[_ ->] | [_ ->]]];
      [contradiction | reflexivity | reflexivity].
  - intros c1 c2 o1 o2 H1 H2.
    apply T in H1 as [[_ ->] | [[_ ->] | [_ ->]]];
      apply T in H2 as [[_ ->] | [[_ ->] | [_ ->]]]; simpl; lia.
Qed.

(** ** Termination *)

Lemma next_char_shorter (p : Parser) :
  peek_next_char p <> NUL ->
  S (length (input (snd (next_char p)))) = length (input p).
Proof.
  intros H. destruct (next_char_cases p) as [[Hpk _] | (c & rest & Hc & Hin & Hnc)].
  - contradiction.
  - now rewrite Hnc, Hin.
Qed.

Lemma invokes_cursor (c c' : call) :
  invokes c c' ->
  match c with
  | Expr _ _ => length (input (cursor c')) <= length (input (cursor c))
  | _ => length (input (cursor c')) < length (input (cursor c))
  end.
Proof.
  intros H. destruct H; cbn [cursor].
  - rewrite <- (next_char_shorter p); [lia | now rewrite H].
  - rewrite <- (next_char_shorter p); [lia | now rewrite H].
  - lia.
  - apply parse_primary_consumes in H. lia.
  - rewrite <- (next_char_shorter p); [lia |].
    now apply operator_info_not_nul in H.
  - apply parse_expr_consumes in H1. apply emit_Done in H2 as [_ ->].
    rewrite <- (next_char_shorter p); [simpl; lia |].
    now apply operator_info_not_nul in H.
Qed.

Lemma invokes_measure (c c' : call) :
  invokes c c' -> call_measure c' < call_measure c.
Proof.
  intros H. pose proof (invokes_cursor c c' H) as L.
  destruct H; cbn [cursor call_measure] in *; lia.
Qed.

Lemma invokes_wf : well_founded (fun c' c => invokes c c').
Proof.
  apply (well_founded_lt_compat _ call_measure). intros c' c.
  apply invokes_measure.
Qed.

(** C9.  [parse] terminates on every input, with an output or with a
    panic: its budget, linear in the length of the input, is never
    exhausted, and no larger budget changes the result; the same holds of
    [parse_expr] in any state.  This is so because [next_char] stays put at
    the terminator, where [parse_primary] panics and calls nothing; every
    call made by [parse_primary] and by an iteration of the loop is on a
    strictly shorter input, the first character having been consumed;
    [parse_expr] calls [parse_primary] where it stands and enters the loop on
    an input that is no longer; so the calls of a run are well-founded. *)
Theorem parse_terminates :
  (forall inp,
      ((exists out, parse inp = Done out) \/ (exists e, parse inp = Panic e)) /\
      forall n, fuel_for inp <= n -> parse_with n inp = parse inp) /\
  (forall p prec,
      do_parse_expr p prec <> OutOfFuel /\
      forall n, fuel_for (input p) <= n ->
                parse_expr n p prec = do_parse_expr p prec) /\
  (forall p,
      peek_next_char p = NUL ->
      next_char p = (NUL, p) /\
      do_parse_primary p = Panic (UnexpectedToken NUL) /\
      forall c', ~ invokes (Primary p) c') /\
  (forall p c',
      invokes (Primary p) c' ->
      cursor c' = snd (next_char p) /\
      S (length (input (cursor c'))) = length (input p)) /\
  (forall p prec c',
      invokes (Loop p prec) c' ->
      length (input (cursor c')) <= length (input (snd (next_char p))) /\
      S (length (input (snd (next_char p)))) = length (input p)) /\
  (forall p prec c',
      invokes (Expr p prec) c' ->
      length (input (cursor c')) <= length (input p)) /\
  well_founded (fun c' c => invokes c c').
Proof.
  split; [| split; [| split; [| split; [| split; [| split]]]]].
  - intros inp. split; [| intros n; apply parse_with_fuel].
    rewrite parse_do_parse_expr.
    pose proof (parse_expr_fuel (mkParser inp [] MAX_OUTPUT) 0) as F.
    unfold do_parse_expr. cbn [input].
    destruct (parse_expr _ _ _) as [p1 | e |]; cbn [bind];
      [| right; now exists e | contradiction].
    destruct (expect p1 NUL) as [p2 | e |] eqn:E2; cbn [bind];
      [| right; now exists e | now apply expect_fuel in E2].
    destruct (emit p2 NUL) as [p3 | e |] eqn:E3; cbn [bind];
      [left; now exists (output p3) | right; now exists e
      | now apply emit_fuel in E3].
  - intros p prec. split; [apply parse_expr_fuel |].
    intros n Hn. apply do_parse_expr_eq. unfold fuel_for in Hn. lia.
  - intros p H. split; [now apply next_char_nul | split].
    + pose proof (do_parse_primary_other p) as D. cbv zeta in D. rewrite H in D.
      apply D; [discriminate .. | reflexivity].
    + intros c' I. inversion I; subst; rewrite H in *; discriminate.
  - intros p c' I.
    inversion I as [? Hpk | ? Hpk | | | |]; subst; cbn [cursor];
      (split; [reflexivity |]); apply next_char_shorter; rewrite Hpk;
      discriminate.
  - intros p prec c' I.
    assert (N : peek_next_char p <> NUL).
    { inversion I; subst; eapply operator_info_not_nul; eauto. }
    split; [| now apply next_char_shorter].
    inversion I as [| | | | | ? ? ? p2 p3 _ _ He Hm]; subst; cbn [cursor];
      [lia |].
    apply parse_expr_consumes in He. apply emit_Done in Hm as [_ ->].
    simpl. lia.
  - intros p prec c' I. apply (invokes_cursor _ _ I).
  - exact invokes_wf.
Qed.

(** ** Running the parser on symbolic input *)

Lemma emit_room (inp out : list ascii) (cap : nat) (ch : ascii) :
  length out < cap ->
  emit (mkParser inp out cap) ch = Done (mkParser inp (out ++ [ch]) cap).
Proof.
  intros H. unfold emit. cbn [output output_end].
  destruct (Nat.eqb_spec (length out) cap); [lia | reflexivity].
Qed.

Lemma expect_next (c : ascii) (rest out : list ascii) (cap : nat) :
  c <> NUL ->
  expect (mkParser (c :: rest) out cap) c = Done (mkParser rest out cap).
Proof.
  intros H. unfold expect.
  rewrite (next_char_cons (mkParser (c :: rest) out cap) c rest eq_refl H).
  now rewrite Ascii.eqb_refl.
Qed.

Lemma primary_variable (x : ascii) (rest out : list ascii) (cap : nat) :
  isalpha x = true -> length out < cap ->
  do_parse_primary (mkParser (x :: rest) out cap) =
  Done (mkParser rest (out ++ [x]) cap).
Proof.
  intros Hx Hc. rewrite do_parse_primary_variable by exact Hx.
  now apply emit_room.
Qed.

Lemma primary_unary (rest out : list ascii) (cap : nat) :
  do_parse_primary (mkParser ("~" :: rest) out cap) =
  p2 <- do_parse_primary (mkParser rest out cap) ;; emit p2 "~".
Proof. now rewrite do_parse_primary_unary. Qed.

Lemma primary_group (rest out : list ascii) (cap : nat) :
  do_parse_primary (mkParser ("(" :: rest) out cap) =
  p2 <- do_parse_expr (mkParser rest out cap) 0 ;; expect p2 ")".
Proof. now rewrite do_parse_primary_group. Qed.

Lemma loop_stop (inp out : list ascii) (cap : nat) (f : Z) :
  operator_info (hd NUL inp) = None ->
  do_parse_expr_loop (mkParser inp out cap) f = Done (mkParser inp out cap).
Proof. intros H. now apply do_parse_expr_loop_other. Qed.

Lemma loop_low (o : ascii) (opi : Operator) (rest out : list ascii)
      (cap : nat) (f : Z) :
  operator_info o = Some opi -> (precedence opi <= f)%Z ->
  do_parse_expr_loop (mkParser (o :: rest) out cap) f =
  Done (mkParser (o :: rest) out cap).
Proof. intros H Hle. now apply do_parse_expr_loop_low with opi. Qed.

Lemma loop_high (o : ascii) (opi : Operator) (rest out : list ascii)
      (cap : nat) (f : Z) :
  operator_info o = Some opi -> (f < precedence opi)%Z ->
  do_parse_expr_loop (mkParser (o :: rest) out cap) f =
  p2 <- do_parse_expr (mkParser rest out cap) (operand_floor opi) ;;
  p3 <- emit p2 o ;;
  do_parse_expr_loop p3 f.
Proof. intros H Hlt. now rewrite (do_parse_expr_loop_high _ f opi). Qed.

(** A variable followed by something at which the loop stops is an
    expression of its own. *)
Lemma expr_variable_stop (x : ascii) (rest out : list ascii) (cap : nat) (f : Z) :
  isalpha x = true -> length out < cap ->
  do_parse_expr_loop (mkParser rest (out ++ [x]) cap) f =
    Done (mkParser rest (out ++ [x]) cap) ->
  do_parse_expr (mkParser (x :: rest) out cap) f =
  Done (mkParser rest (out ++ [x]) cap).
Proof.
  intros Hx Hc Hl. rewrite do_parse_expr_unfold, primary_variable by assumption.
  exact Hl.
Qed.


(** ** Chains of operators of one precedence *)

Section Chains.

(** The precedence of the operators of the chain. *)
Variable P : Z.

Lemma loop_left_chain (links : list (ascii * ascii)) :
  forall (rest out : list ascii) (cap : nat) (f : Z),
    Forall (chain_link P false) links -> (f < P)%Z ->
    operator_info (hd NUL rest) = None ->
    length out + 2 * length links <= cap ->
    do_parse_expr_loop (mkParser (infix_chain links ++ rest) out cap) f =
    Done (mkParser rest (out ++ postfix_left links) cap).
Proof.
  induction links as [| [o x] links IH]; intros rest out cap f HF Hf Hr Hc.
  - cbn. rewrite app_nil_r. now apply loop_stop.
  - inversion HF as [| ? ? (Hx & opi & Ho & HP & Hl) HF']; subst.
    cbn [fst snd] in *. cbn [infix_chain flat_map app fst snd length] in *.
    fold (infix_chain links).
    rewrite (loop_high o opi) by (auto; lia).
    unfold operand_floor. rewrite Hl, Z.sub_0_r.
    rewrite expr_variable_stop; [ | exact Hx | lia | ].
    2:{ destruct links as [| [o' x'] links'].
        - now apply loop_stop.
        - inversion HF' as [| ? ? (_ & opi' & Ho' & HP' & _) _]; subst.
          cbn [fst] in Ho'. cbn [infix_chain flat_map app fst snd].
          apply loop_low with opi'; [exact Ho' | lia]. }
    cbn [bind]. rewrite emit_room by (rewrite length_app; simpl; lia).
    cbn [bind]. rewrite IH; auto.
    + cbn [postfix_left flat_map fst snd app]. fold (postfix_left links).
      now rewrite <- !app_assoc.
    + rewrite !length_app. simpl. lia.
Qed.

Lemma expr_right_chain (links : list (ascii * ascii)) :
  forall (x0 : ascii) (rest out : list ascii) (cap : nat) (f : Z),
    isalpha x0 = true ->
    Forall (chain_link P true) links -> (f < P)%Z ->
    operator_info (hd NUL rest) = None ->
    length out + 1 + 2 * length links <= cap ->
    do_parse_expr (mkParser (x0 :: infix_chain links ++ rest) out cap) f =
    Done (mkParser rest (out ++ x0 :: postfix_right links) cap).
Proof.
  induction links as [| [o x] links IH]; intros x0 rest out cap f Hx0 HF Hf Hr Hc.
  - cbn [infix_chain flat_map app length] in *.
    unfold postfix_right. cbn [map rev app].
    apply expr_variable_stop; [exact Hx0 | lia | now apply loop_stop].
  - inversion HF as [| ? ? (Hx & opi & Ho & HP & Hl) HF']; subst.
    cbn [fst snd] in *. cbn [infix_chain flat_map app fst snd length] in *.
    fold (infix_chain links).
    rewrite do_parse_expr_unfold, primary_variable by (auto; lia). cbn [bind].
    rewrite (loop_high o opi) by (auto; lia).
    rewrite (IH x rest (out ++ [x0]) cap (operand_floor opi)); auto.
    2:{ unfold operand_floor. rewrite Hl. lia. }
    2:{ rewrite length_app. simpl. lia. }
    cbn [bind]. rewrite emit_room.
    2:{ unfold postfix_right.
        rewrite !length_app. cbn [length]. rewrite !length_app, length_rev, !length_map.
        simpl. lia. }
    cbn [bind]. rewrite loop_stop by exact Hr.
    unfold postfix_right. cbn [map rev fst snd].
    f_equal. f_equal. rewrite <- !app_assoc. cbn [app].
    now rewrite <- !app_assoc.
Qed.

End Chains.

Lemma chain_link_positive (P : Z) (ra : bool) (l : ascii * ascii) :
  chain_link P ra l -> (0 < P)%Z.
Proof.
  intros (_ & opi & Ho & <- & _).
  apply operator_info_cases in Ho as [[_ ->] | [[_ ->] | [_ ->]]]; reflexivity.
Qed.

Lemma chain_links_floor (P : Z) (ra : bool) (links : list (ascii * ascii)) :
  Forall (chain_link P ra) links ->
  exists P', (0 < P')%Z /\ Forall (chain_link P' ra) links.
Proof.
  intros HF. destruct HF as [| l links Hl HF].
  - exists 1%Z. split; [reflexivity | constructor].
  - exists P. split; [now apply chain_link_positive in Hl | now constructor].
Qed.

(** [parse] on an input whose expression takes all of it. *)
Lemma parse_finish (inp : list ascii) (p1 : Parser) :
  do_parse_expr (mkParser inp [] MAX_OUTPUT) 0 = Done p1 ->
  peek_next_char p1 = NUL ->
  length (output p1) <> output_end p1 ->
  parse inp = Done (output p1 ++ [NUL]).
Proof.
  intros H Hpk Hc. rewrite parse_do_parse_expr, H. cbn [bind].
  unfold expect. rewrite (next_char_nul p1 Hpk). cbn [Ascii.eqb Bool.eqb NUL zero bind].
  unfold emit. destruct (Nat.eqb_spec (length (output p1)) (output_end p1));
    [contradiction | reflexivity].
Qed.

(** C3.  A chain [x0 o1 x1 ... on xn] of variables and binary operators of
    one precedence comes out grouped from the left,
    [x0 x1 o1 x2 o2 ... xn on], when the operators are left-associative, and
    grouped from the right, [x0 x1 ... xn on ... o1], when they are
    right-associative, as long as the result fits the output buffer; so
    ["a+b+c"] gives ["ab+c+"] and ["a=b=c"] gives ["abc=="]. *)
Theorem parse_associativity :
  (forall P x0 links,
      isalpha x0 = true -> Forall (chain_link P false) links ->
      2 * length links + 2 <= MAX_OUTPUT ->
      parse (x0 :: infix_chain links) =
      Done (x0 :: postfix_left links ++ [NUL])) /\
  (forall P x0 links,
      isalpha x0 = true -> Forall (chain_link P true) links ->
      2 * length links + 2 <= MAX_OUTPUT ->
      parse (x0 :: infix_chain links) =
      Done (x0 :: postfix_right links ++ [NUL])) /\
  parse (str "a+b+c") = Done (terminated "ab+c+") /\
  parse (str "a=b=c") = Done (terminated "abc==").
Proof.
  split; [| split; [| split; reflexivity]].
  - intros P x0 links Hx HF Hc. unfold MAX_OUTPUT in Hc.
    apply chain_links_floor in HF as (P' & HP & HF).
    assert (E : do_parse_expr (mkParser (x0 :: infix_chain links) [] MAX_OUTPUT) 0 =
                Done (mkParser [] (x0 :: postfix_left links) MAX_OUTPUT)).
    { rewrite do_parse_expr_unfold, primary_variable
        by (auto; unfold MAX_OUTPUT; simpl; lia).
      cbn [bind]. rewrite <- (app_nil_r (infix_chain links)).
      apply (loop_left_chain P'); auto. unfold MAX_OUTPUT. simpl length. lia. }
    apply parse_finish in E; [exact E | reflexivity |].
    cbn [output output_end length]. unfold MAX_OUTPUT.
    unfold postfix_left. rewrite (flat_map_constant_length (c := 2)); [lia | auto].
  - intros P x0 links Hx HF Hc. unfold MAX_OUTPUT in Hc.
    apply chain_links_floor in HF as (P' & HP & HF).
    assert (E : do_parse_expr (mkParser (x0 :: infix_chain links) [] MAX_OUTPUT) 0 =
                Done (mkParser [] (x0 :: postfix_right links) MAX_OUTPUT)).
    { rewrite <- (app_nil_r (infix_chain links)).
      apply (expr_right_chain P'); auto. unfold MAX_OUTPUT. simpl length. lia. }
    apply parse_finish in E; [exact E | reflexivity |].
    cbn [output output_end length]. unfold MAX_OUTPUT.
    unfold postfix_right. rewrite length_app, length_rev, !length_map. lia.
Qed.

(** An instance of each kind of chain. *)
Lemma parse_associativity_witness :
  parse (str "a-b+c-d") = Done (terminated "ab-c+d-") /\
  parse (str "p=q=r=s") = Done (terminated "pqrs===").
Proof.
  split.
  - apply (proj1 parse_associativity 10%Z "a" [("-", "b"); ("+", "c"); ("-", "d")]).
    + reflexivity.
    + repeat constructor; cbn; eexists; repeat split; reflexivity.
    + unfold MAX_OUTPUT; simpl; lia.
  - apply (proj1 (proj2 parse_associativity) 1%Z "p"
             [("=", "q"); ("=", "r"); ("=", "s")]).
    + reflexivity.
    + repeat constructor; cbn; eexists; repeat split; reflexivity.
    + unfold MAX_OUTPUT; simpl; lia.
Defined.

(** ** Precedence and grouping *)

Lemma expect_end (inp out : list ascii) (cap : nat) :
  hd NUL inp = NUL ->
  expect (mkParser inp out cap) NUL = Done (mkParser inp out cap).
Proof.
  intros H. unfold expect. rewrite (next_char_nul (mkParser inp out cap) H).
  reflexivity.
Qed.

(** One step of a run on an input whose variables are symbolic and whose
    other characters are given. *)
Ltac room := unfold MAX_OUTPUT; simpl; lia.

Ltac run_step :=
  first
    [ rewrite do_parse_expr_unfold
    | rewrite primary_variable by (first [assumption | room])
    | rewrite primary_unary
    | rewrite primary_group
    | rewrite emit_room by room
    | rewrite expect_next by discriminate
    | rewrite expect_end by reflexivity
    | erewrite loop_high by reflexivity
    | erewrite loop_low by (first [reflexivity | cbv; discriminate])
    | rewrite loop_stop
        by (first [reflexivity | cbn [hd]; now apply isalpha_not_special]) ];
  cbn [bind app output];
  repeat match goal with
    | |- context [operand_floor ?o] =>
        let v := eval cbv in (operand_floor o) in
        change (operand_floor o) with v
    end.

Ltac run_parse := rewrite parse_do_parse_expr; repeat run_step; reflexivity.

Lemma operators_by_precedence (lo hi : ascii) (olo ohi : Operator) :
  operator_info lo = Some olo -> operator_info hi = Some ohi ->
  (precedence olo < precedence ohi)%Z ->
  (lo = "=" /\ (hi = "+" \/ hi = "-" \/ hi = "*" \/ hi = "/")) \/
  ((lo = "+" \/ lo = "-") /\ (hi = "*" \/ hi = "/")).
Proof.
  intros Hlo Hhi.
  apply operator_info_cases in Hlo as [[-> ->] | [[Hlo ->] | [Hlo ->]]];
    apply operator_info_cases in Hhi as [[-> ->] | [[Hhi ->] | [Hhi ->]]];
    simpl; intros Hlt; try lia; tauto.
Qed.

Lemma operators_listed (o : ascii) (opi : Operator) :
  operator_info o = Some opi ->
  o = "=" \/ o = "+" \/ o = "-" \/ o = "*" \/ o = "/".
Proof. intros H. apply operator_info_cases in H. tauto. Qed.

(** C4.  Of two neighbouring binary operators around a shared operand, the
    one of higher precedence takes the operand and comes first in the
    output, whichever side it stands on, and parentheses around the
    lower-precedence (or any) operation make it an operand of its own; so
    ["a+b*c"] gives ["abc*+"], ["a*b+c"] gives ["ab*c+"] and ["(a+b)*c"]
    gives ["ab+c*"]. *)
Theorem parse_precedence :
  (forall x y z lo hi olo ohi,
      isalpha x = true -> isalpha y = true -> isalpha z = true ->
      operator_info lo = Some olo -> operator_info hi = Some ohi ->
      (precedence olo < precedence ohi)%Z ->
      parse [x; lo; y; hi; z] = Done [x; y; z; hi; lo; NUL] /\
      parse [x; hi; y; lo; z] = Done [x; y; hi; z; lo; NUL]) /\
  (forall x y z o1 o2 opi1 opi2,
      isalpha x = true -> isalpha y = true -> isalpha z = true ->
      operator_info o1 = Some opi1 -> operator_info o2 = Some opi2 ->
      parse ["("; x; o1; y; ")"; o2; z] = Done [x; y; o1; z; o2; NUL]) /\
  parse (str "a+b*c") = Done (terminated "abc*+") /\
  parse (str "a*b+c") = Done (terminated "ab*c+") /\
  parse (str "(a+b)*c") = Done (terminated "ab+c*").
Proof.
  split; [| split; [| repeat split; reflexivity]].
  - intros x y z lo hi olo ohi Hx Hy Hz Hlo Hhi Hlt.
    destruct (operators_by_precedence _ _ _ _ Hlo Hhi Hlt)
      as [[-> [-> | [-> | [-> | ->]]]] | [[-> | ->] [-> | ->]]];
      split; run_parse.
  - intros x y z o1 o2 opi1 opi2 Hx Hy Hz H1 H2.
    apply operators_listed in H1 as [-> | [-> | [-> | [-> | ->]]]];
      apply operators_listed in H2 as [-> | [-> | [-> | [-> | ->]]]];
      run_parse.
Qed.

(** Instances: [-] against [/], and a parenthesized assignment. *)
Lemma parse_precedence_witness :
  (parse (str "p-q/r") = Done (terminated "pqr/-") /\
   parse (str "p/q-r") = Done (terminated "pq/r-")) /\
  parse (str "(a=b)+c") = Done (terminated "ab=c+").
Proof.
  split.
  - apply (proj1 parse_precedence "p" "q" "r" "-" "/" additive_op multiplicative_op);
      reflexivity.
  - apply (proj1 (proj2 parse_precedence) "a" "b" "c" "=" "+"
             assignment_op additive_op); reflexivity.
Defined.

(** ** The unary operator *)

Lemma primary_nested_unary (x : ascii) (n : nat) :
  forall (rest out : list ascii) (cap : nat),
    isalpha x = true -> length out + 1 + n <= cap ->
    do_parse_primary (mkParser (repeat "~" n ++ x :: rest) out cap) =
    Done (mkParser rest (out ++ x :: repeat "~" n) cap).
Proof.
  induction n as [| n IH]; intros rest out cap Hx Hc; cbn [repeat app].
  - apply primary_variable; [exact Hx | lia].
  - rewrite primary_unary, IH by (auto; lia). cbn [bind].
    rewrite emit_room.
    + rewrite <- app_assoc. cbn [app]. now rewrite <- repeat_cons.
    + rewrite length_app. cbn [length]. rewrite repeat_length. lia.
Qed.

(** C5.  At ['~'] the primary parser parses a primary expression, whatever
    it is, and emits ['~'] right after what that expression emitted; so any
    number of ['~'] before a variable comes out after it, and ['~'] applies
    to the primary expression next to it, not to a binary operation that
    this expression is an operand of: ["~a"] gives ["a~"], ["~~a"] gives
    ["a~~"] and ["a*~b"] gives ["ab~*"]. *)
Theorem parse_unary :
  (forall p,
      peek_next_char p = "~" ->
      do_parse_primary p =
        (p2 <- do_parse_primary (snd (next_char p)) ;; emit p2 "~") /\
      input (snd (next_char p)) = tl (input p) /\
      forall p', do_parse_primary p = Done p' ->
        exists p2 operand,
          do_parse_primary (snd (next_char p)) = Done p2 /\
          output p2 = output p ++ operand /\
          output p' = output p ++ operand ++ ["~"]) /\
  (forall n x,
      isalpha x = true -> n + 2 <= MAX_OUTPUT ->
      parse (repeat "~" n ++ [x]) = Done (x :: repeat "~" n ++ [NUL])) /\
  (forall x y o opi,
      isalpha x = true -> isalpha y = true -> operator_info o = Some opi ->
      parse [x; o; "~"; y] = Done [x; y; "~"; o; NUL] /\
      parse ["~"; x; o; y] = Done [x; "~"; y; o; NUL]) /\
  parse (str "~a") = Done (terminated "a~") /\
  parse (str "~~a") = Done (terminated "a~~") /\
  parse (str "a*~b") = Done (terminated "ab~*").
Proof.
  split; [| split; [| split; [| repeat split; reflexivity]]].
  - intros p Hpk.
    assert (E : snd (next_char p) = set_input p (tl (input p))).
    { destruct (next_char_cases p) as [[Hn _] | (c & rest & Hc & Hin & Hnc)].
      - rewrite Hpk in Hn. discriminate.
      - now rewrite Hnc, Hin. }
    rewrite E. split; [now apply do_parse_primary_unary | split; [reflexivity |]].
    intros p' H. rewrite (do_parse_primary_unary p Hpk) in H.
    apply bind_Done in H as (p2 & H1 & H2). exists p2.
    pose proof H1 as R. unfold do_parse_primary in R.
    apply (proj1 (parse_run _)) in R as (c & e & (_ & Ho & _) & _).
    exists e. apply emit_Done in H2 as [_ ->].
    cbn [output set_output set_input] in *.
    split; [exact H1 | split; [exact Ho |]].
    rewrite Ho. now rewrite app_assoc.
  - intros n x Hx Hc. unfold MAX_OUTPUT in Hc.
    assert (E : do_parse_expr (mkParser (repeat "~" n ++ [x]) [] MAX_OUTPUT) 0 =
                Done (mkParser [] (x :: repeat "~" n) MAX_OUTPUT)).
    { rewrite do_parse_expr_unfold, primary_nested_unary
        by (auto; unfold MAX_OUTPUT; simpl; lia).
      cbn [bind app]. now apply loop_stop. }
    apply parse_finish in E; [exact E | reflexivity |].
    cbn [output output_end length]. rewrite repeat_length. unfold MAX_OUTPUT. lia.
  - intros x y o opi Hx Hy Ho.
    apply operators_listed in Ho as [-> | [-> | [-> | [-> | ->]]]];
      split; run_parse.
Qed.

(** Instances: three nested ['~'], and ['~'] on either side of [+]. *)
Lemma parse_unary_witness :
  parse (str "~~~z") = Done (terminated "z~~~") /\
  parse (str "p+~q") = Done (terminated "pq~+") /\
  parse (str "~p+q") = Done (terminated "p~q+").
Proof.
  split.
  - apply (proj1 (proj2 parse_unary) 3 "z"); [reflexivity | room].
  - apply (proj1 (proj2 (proj2 parse_unary)) "p" "q" "+" additive_op);
      reflexivity.
Defined.

(** ** Input consumed against output emitted *)

Lemma c_str_consumed (consumed rest : list ascii) :
  ~ In NUL consumed -> hd NUL rest = NUL -> c_str (consumed ++ rest) = consumed.
Proof.
  intros Hn Hr. induction consumed as [| c consumed IH]; cbn [app c_str].
  - destruct rest as [| r rest]; [reflexivity |]. cbn in Hr. subst r. reflexivity.
  - destruct (Ascii.eqb_spec c NUL) as [-> | _].
    + contradiction Hn. now left.
    + f_equal. apply IH. intros H. apply Hn. now right.
Qed.

Lemma c_str_no_nul (inp : list ascii) : ~ In NUL inp -> c_str inp = inp.
Proof.
  intros H. rewrite <- (app_nil_r inp) at 1. now apply c_str_consumed.
Qed.

(** What a successful [parse] went through. *)
Lemma parse_Done (inp out : list ascii) :
  parse inp = Done out ->
  exists p1,
    do_parse_expr (mkParser inp [] MAX_OUTPUT) 0 = Done p1 /\
    peek_next_char p1 = NUL /\
    length (output p1) <> output_end p1 /\
    out = output p1 ++ [NUL].
Proof.
  rewrite parse_do_parse_expr. intros H.
  apply bind_Done in H as (p1 & H1 & H).
  apply bind_Done in H as (p2 & H2 & H).
  apply bind_Done in H as (p3 & H3 & H).
  apply expect_Done in H2 as [Hpk ->].
  rewrite (next_char_nul p1 Hpk) in H3. cbn [snd] in H3.
  apply emit_Done in H3 as [Hc ->]. inversion H; subst.
  exists p1. auto.
Qed.

(** C6.  When [parse] succeeds, what it wrote before the terminator is a
    rearrangement of the characters of the input string other than ['(']
    and [')']: every consumed variable and operator is emitted exactly once
    and the parentheses not at all.  So the length of the output without
    its terminator is the length of the input minus the number of
    parentheses in it. *)
Theorem parse_emits_consumed (inp out : list ascii) :
  parse inp = Done out ->
  exists payload,
    out = payload ++ [NUL] /\
    ~ In NUL payload /\
    Permutation payload (filter (fun ch => negb (grouping ch)) (c_str inp)) /\
    length payload =
      length (c_str inp) - length (filter grouping (c_str inp)).
Proof.
  intros H. apply parse_Done in H as (p1 & H1 & Hpk & _ & ->).
  unfold do_parse_expr in H1.
  apply (proj1 (proj2 (parse_run _))) in H1 as (c & e & (Hi & Ho & _ & Hn) & _ & P).
  cbn [input output app] in Hi, Ho.
  assert (E : c_str inp = c) by (rewrite Hi; now apply c_str_consumed).
  exists (output p1). rewrite Ho, E. fold (emitted_of c).
  split; [reflexivity | split; [| split; [exact P |]]].
  - intros I. apply (Permutation_in _ P) in I. apply filter_In in I as [I _].
    contradiction.
  - rewrite (Permutation_length P). unfold emitted_of.
    pose proof (filter_length grouping c). lia.
Qed.

(** An instance with parentheses: seven characters in, five out. *)
Lemma parse_emits_consumed_witness :
  exists payload,
    terminated "ab+c*" = payload ++ [NUL] /\
    ~ In NUL payload /\
    Permutation payload
      (filter (fun ch => negb (grouping ch)) (c_str (str "(a+b)*c"))) /\
    length payload =
      length (c_str (str "(a+b)*c")) -
      length (filter grouping (c_str (str "(a+b)*c"))).
Proof. apply (parse_emits_consumed (str "(a+b)*c")). reflexivity. Defined.

(** ** Where a panic comes from *)

Lemma next_char_snd (p : Parser) :
  peek_next_char p <> NUL -> snd (next_char p) = set_input p (tl (input p)).
Proof.
  intros H. destruct (next_char_cases p) as [[Hn _] | (c & rest & Hc & Hin & Hnc)].
  - contradiction.
  - now rewrite Hnc, Hin.
Qed.

Lemma emit_full (p : Parser) (ch : ascii) :
  length (output p) = output_end p -> emit p ch = Panic OutputOverflow.
Proof. intros H. unfold emit. now rewrite H, Nat.eqb_refl. Qed.

(** The bodies of the three procedures, over [result]. *)
Lemma result_Primary (p : Parser) :
  result (Primary p) =
  let ch := peek_next_char p in
  if Ascii.eqb ch "~" then
    p2 <- result (Primary (snd (next_char p))) ;; emit p2 "~"
  else if Ascii.eqb ch "(" then
    p2 <- result (Expr (snd (next_char p)) 0) ;; expect p2 ")"
  else if isalpha ch then emit (snd (next_char p)) ch
  else Panic (UnexpectedToken ch).
Proof.
  cbn [result]. cbv zeta.
  destruct (Ascii.eqb_spec (peek_next_char p) "~") as [E | Nt].
  { rewrite (do_parse_primary_unary p E), next_char_snd; [reflexivity |].
    rewrite E. discriminate. }
  destruct (Ascii.eqb_spec (peek_next_char p) "(") as [E | Ng].
  { rewrite (do_parse_primary_group p E), next_char_snd; [reflexivity |].
    rewrite E. discriminate. }
  destruct (isalpha (peek_next_char p)) eqn:Ha.
  - rewrite (do_parse_primary_variable p Ha), next_char_snd; [reflexivity |].
    now apply isalpha_not_special.
  - now apply do_parse_primary_other.
Qed.

Lemma result_Expr (p : Parser) (prec : Z) :
  result (Expr p prec) = p1 <- result (Primary p) ;; result (Loop p1 prec).
Proof. apply do_parse_expr_unfold. Qed.

Lemma result_Loop (p : Parser) (prec : Z) :
  result (Loop p prec) =
  let ch := peek_next_char p in
  match operator_info ch with
  | None => Done p
  | Some opi =>
      if (prec >=? precedence opi)%Z then Done p
      else
        p2 <- result (Expr (snd (next_char p)) (operand_floor opi)) ;;
        p3 <- emit p2 ch ;;
        result (Loop p3 prec)
  end.
Proof.
  cbn [result]. cbv zeta.
  destruct (operator_info (peek_next_char p)) as [opi |] eqn:Hop.
  2:{ now apply do_parse_expr_loop_other. }
  destruct (Z.geb_spec prec (precedence opi)) as [Hge | Hlt].
  { apply do_parse_expr_loop_low with opi; [exact Hop | lia]. }
  rewrite (do_parse_expr_loop_high p prec opi Hop Hlt), next_char_snd;
    [reflexivity |].
  now apply operator_info_not_nul in Hop.
Qed.

(** A panic of a call made is the outcome of the caller. *)
Lemma invokes_Panic (c c' : call) (e : error) :
  invokes c c' -> result c' = Panic e -> result c = Panic e.
Proof.
  intros I H. destruct I as [p Hpk | p Hpk | p prec | p prec p1 H1
                            | p prec opi Hop Hlt | p prec opi p2 p3 Hop Hlt H2 H3].
  - rewrite result_Primary. cbv zeta. rewrite Hpk. cbn [Ascii.eqb Bool.eqb].
    now rewrite H.
  - rewrite result_Primary. cbv zeta. rewrite Hpk. cbn [Ascii.eqb Bool.eqb].
    now rewrite H.
  - rewrite result_Expr. now rewrite H.
  - rewrite result_Expr. cbn [result] in *. now rewrite H1.
  - rewrite result_Loop. cbv zeta. rewrite Hop.
    destruct (Z.geb_spec prec (precedence opi)); [lia |]. now rewrite H.
  - rewrite result_Loop. cbv zeta. rewrite Hop.
    destruct (Z.geb_spec prec (precedence opi)); [lia |].
    cbn [result] in *. rewrite H2. cbn [bind]. now rewrite H3.
Qed.

Lemma reaches_Panic (c c' : call) (e : error) :
  reaches c c' -> result c' = Panic e -> result c = Panic e.
Proof.
  induction 1 as [| c c' c'' I _ IH]; auto.
  intros H. apply (invokes_Panic c c'); auto.
Qed.

Lemma raises_Panic (c : call) (e : error) : raises c e -> result c = Panic e.
Proof.
  intros R. destruct R as [p Nt Ng Ha | p p2 Hpk H2 Hn | p Ha Hc
                          | p p2 Hpk H2 Hc | p prec opi p2 Hop Hlt H2 Hc].
  - now apply do_parse_primary_other.
  - rewrite result_Primary. cbv zeta. rewrite Hpk. cbn [Ascii.eqb Bool.eqb].
    cbn [result]. rewrite H2. cbn [bind]. unfold expect.
    rewrite <- (next_char_fst p2) in *. destruct (next_char p2) as [got q].
    cbn [fst] in *. destruct (Ascii.eqb_spec got ")"); [contradiction | reflexivity].
  - rewrite result_Primary. cbv zeta.
    destruct (isalpha_not_special _ Ha) as (Hnul & -> & -> & _). rewrite Ha.
    apply emit_full. now rewrite next_char_snd.
  - rewrite result_Primary. cbv zeta. rewrite Hpk. cbn [Ascii.eqb Bool.eqb].
    cbn [result]. rewrite H2. cbn [bind]. now apply emit_full.
  - rewrite result_Loop. cbv zeta. rewrite Hop.
    destruct (Z.geb_spec prec (precedence opi)); [lia |].
    cbn [result]. rewrite H2. cbn [bind]. now rewrite emit_full.
Qed.

Lemma reaches_trans (c c' c'' : call) :
  reaches c c' -> reaches c' c'' -> reaches c c''.
Proof.
  induction 1 as [| c c1 c2 I _ IH]; auto.
  intros H. apply (reaches_step c c1); auto.
Qed.

(** Every panic is raised by a call that the run reaches. *)
Lemma Panic_raised (c : call) :
  forall e, result c = Panic e -> exists c', reaches c c' /\ raises c' e.
Proof.
  induction c as [c IH] using (well_founded_induction invokes_wf).
  assert (sub : forall c1 e, invokes c c1 -> result c1 = Panic e ->
                             exists c', reaches c c' /\ raises c' e).
  { intros c1 e I H. destruct (IH c1 I e H) as (c' & R & E).
    exists c'. split; [now apply (reaches_step c c1) | exact E]. }
  intros e H. destruct c as [p | p prec | p prec].
  - rewrite result_Primary in H. cbv zeta in H.
    destruct (Ascii.eqb_spec (peek_next_char p) "~") as [Et | Nt].
    { apply bind_Panic in H as [H | (p2 & H2 & H)].
      - apply (sub (Primary (snd (next_char p)))); [now constructor | exact H].
      - apply emit_Panic in H as [-> Hc].
        exists (Primary p). split; [constructor |].
        now apply raises_overflow_unary with p2. }
    destruct (Ascii.eqb_spec (peek_next_char p) "(") as [Eg | Ng].
    { apply bind_Panic in H as [H | (p2 & H2 & H)].
      - apply (sub (Expr (snd (next_char p)) 0)); [now constructor | exact H].
      - apply expect_Panic in H as [-> Hn].
        exists (Primary p). split; [constructor |].
        now apply raises_unclosed. }
    destruct (isalpha (peek_next_char p)) eqn:Ha.
    + apply emit_Panic in H as [-> Hc].
      exists (Primary p). split; [constructor |].
      apply raises_overflow_variable; [exact Ha |].
      rewrite next_char_snd in Hc; [exact Hc | now apply isalpha_not_special].
    + inversion H; subst. exists (Primary p). split; [constructor |].
      now apply raises_unexpected.
  - rewrite result_Expr in H.
    apply bind_Panic in H as [H | (p1 & H1 & H)].
    + apply (sub (Primary p)); [constructor | exact H].
    + apply (sub (Loop p1 prec)); [now constructor | exact H].
  - rewrite result_Loop in H. cbv zeta in H.
    destruct (operator_info (peek_next_char p)) as [opi |] eqn:Hop;
      [| discriminate].
    destruct (Z.geb_spec prec (precedence opi)) as [Hge | Hlt]; [discriminate |].
    apply bind_Panic in H as [H | (p2 & H2 & H)].
    { apply (sub (Expr (snd (next_char p)) (operand_floor opi)));
        [now constructor | exact H]. }
    apply bind_Panic in H as [H | (p3 & H3 & H)].
    + apply emit_Panic in H as [-> Hc].
      exists (Loop p prec). split; [constructor |].
      now apply raises_overflow_operator with opi p2.
    + apply (sub (Loop p3 prec)); [| exact H].
      now apply invokes_again with opi p2.
Qed.

Lemma parse_result (inp : list ascii) :
  parse inp =
  p <- result (top inp) ;; p <- expect p NUL ;; p <- emit p NUL ;; Done (output p).
Proof. reflexivity. Qed.

(** A panic of [parse]: one of the run of [parse_expr], or of the end check,
    or of the emission of the terminator. *)
Lemma parse_Panic (inp : list ascii) (e : error) :
  parse inp = Panic e <->
  result (top inp) = Panic e \/
  (exists p1, result (top inp) = Done p1 /\ peek_next_char p1 <> NUL /\
              e = TokenMismatch NUL (peek_next_char p1)) \/
  (exists p1, result (top inp) = Done p1 /\ peek_next_char p1 = NUL /\
              length (output p1) = output_end p1 /\ e = OutputOverflow).
Proof.
  rewrite parse_result. split.
  - intros H. apply bind_Panic in H as [H | (p1 & H1 & H)]; [now left |].
    right. destruct (Ascii.eqb_spec (peek_next_char p1) NUL) as [E | N].
    + right. exists p1. unfold expect in H. rewrite (next_char_nul p1 E) in H.
      cbn [Ascii.eqb Bool.eqb NUL zero bind] in H.
      apply bind_Panic in H as [H | (p3 & _ & H)]; [| discriminate].
      apply emit_Panic in H as [-> Hc]. auto.
    + left. exists p1. apply bind_Panic in H as [H | (p2 & H2 & H)].
      * apply expect_Panic in H as [-> _]. auto.
      * apply expect_Done in H2 as [E _]. contradiction.
  - intros [H | [(p1 & H1 & N & ->) | (p1 & H1 & E & Hc & ->)]].
    + now rewrite H.
    + rewrite H1. cbn [bind]. unfold expect.
      rewrite <- (next_char_fst p1) in *. destruct (next_char p1) as [got q].
      cbn [fst] in *. destruct (Ascii.eqb_spec got NUL); [contradiction | reflexivity].
    + rewrite H1. cbn [bind]. unfold expect. rewrite (next_char_nul p1 E).
      cbn [Ascii.eqb Bool.eqb NUL zero bind]. now rewrite emit_full.
Qed.

(** ** Unexpected tokens *)

Lemma isalpha_letters (ch : ascii) : isalpha ch = true <-> In ch letters.
Proof.
  assert (E : isalpha ch = existsb (Ascii.eqb ch) letters).
  { destruct ch as [[] [] [] [] [] [] [] []]; reflexivity. }
  rewrite E, existsb_exists. split.
  - intros (x & I & H). apply Ascii.eqb_eq in H. now subst.
  - intros I. exists ch. split; [exact I | apply Ascii.eqb_refl].
Qed.

(** C7.  Where [parse_primary] is called with the next character neither a
    letter nor ['~'] nor ['('], the terminator of an empty or exhausted
    input included, it panics with "unexpected character" and that
    character, and so does the [parse] in whose run the call is made; and
    [parse] panics so, with a character [ch], only when its run makes such a
    call at [ch]. *)
Theorem unexpected_token :
  (forall ch, isalpha ch = true <-> In ch letters) /\
  (forall p n,
      let ch := peek_next_char p in
      isalpha ch = false -> ch <> "~" -> ch <> "(" ->
      parse_primary (S n) p = Panic (UnexpectedToken ch) /\
      do_parse_primary p = Panic (UnexpectedToken ch)) /\
  (forall inp p,
      let ch := peek_next_char p in
      reaches (top inp) (Primary p) ->
      isalpha ch = false -> ch <> "~" -> ch <> "(" ->
      parse inp = Panic (UnexpectedToken ch)) /\
  (forall inp ch,
      parse inp = Panic (UnexpectedToken ch) ->
      isalpha ch = false /\ ch <> "~" /\ ch <> "(" /\
      exists p, reaches (top inp) (Primary p) /\ peek_next_char p = ch) /\
  parse [] = Panic (UnexpectedToken NUL).
Proof.
  split; [exact isalpha_letters |].
  split; [| split; [| split; [| reflexivity]]].
  - intros p n ch Ha Nt Ng. split; [| now apply do_parse_primary_other].
    rewrite parse_primary_S. cbv zeta. rewrite next_char_fst. fold ch.
    destruct (Ascii.eqb_spec ch "~"); [contradiction |].
    destruct (Ascii.eqb_spec ch "("); [contradiction |].
    now rewrite Ha.
  - intros inp p ch R Ha Nt Ng. apply parse_Panic. left.
    apply (reaches_Panic _ _ _ R). now apply do_parse_primary_other.
  - intros inp ch H.
    apply parse_Panic in H as [H | [(p1 & _ & _ & H) | (p1 & _ & _ & _ & H)]];
      [| discriminate | discriminate].
    apply Panic_raised in H as (c' & R & E).
    inversion E as [p Nt Ng Ha | | | |]; subst.
    repeat split; auto. now exists p.
Qed.

(** An instance: the operand missing after [+], at the end of the input. *)
Lemma unexpected_token_witness :
  parse (str "a+") = Panic (UnexpectedToken NUL).
Proof.
  apply (proj1 (proj2 (proj2 unexpected_token)) (str "a+")
           (mkParser [] ["a"] MAX_OUTPUT)); try reflexivity; try discriminate.
  apply (reaches_step _ (Loop (mkParser ["+"] ["a"] MAX_OUTPUT) 0)).
  { now apply invokes_loop. }
  apply (reaches_step _ (Expr (mkParser [] ["a"] MAX_OUTPUT) 10)).
  { exact (invokes_operand (mkParser ["+"] ["a"] MAX_OUTPUT) 0 additive_op
             eq_refl eq_refl). }
  apply (reaches_step _ (Primary (mkParser [] ["a"] MAX_OUTPUT))).
  { apply invokes_primary. }
  apply reaches_here.
Defined.

(** ** Token mismatches *)

(** C8, as amended.  [parse] panics with "expected ..., got ..." in two
    situations and no other: its run reaches a [parse_primary] at ['(']
    whose inner expression returns before a character other than [')']
    (expected [')']), the terminator included; or the expression of the
    whole input returns before a character other than the terminator
    (expected the terminator).  The message names the expected character and
    the one met.  When the expression of the whole input returns at the
    terminator, nothing is left over and [parse] does not panic so: it
    succeeds unless the output buffer is full.  Reading the whole input is
    not enough for that: a group left open when the input ends is the first
    situation. *)
Theorem token_mismatch (inp : list ascii) :
  (forall expected got,
      parse inp = Panic (TokenMismatch expected got) <->
      (expected = ")" /\ got <> ")" /\
       exists p p2,
         reaches (top inp) (Primary p) /\ peek_next_char p = "(" /\
         do_parse_expr (snd (next_char p)) 0 = Done p2 /\
         peek_next_char p2 = got) \/
      (expected = NUL /\ got <> NUL /\
       exists p1, result (top inp) = Done p1 /\ peek_next_char p1 = got)) /\
  (forall p1,
      result (top inp) = Done p1 -> peek_next_char p1 = NUL ->
      (parse inp = Done (output p1 ++ [NUL]) \/ parse inp = Panic OutputOverflow) /\
      forall expected got, parse inp <> Panic (TokenMismatch expected got)).
Proof.
  split.
  - intros expected got. split.
    + intros H.
      apply parse_Panic in H as [H | [(p1 & H1 & N & H) | (p1 & _ & _ & _ & H)]];
        [| | discriminate].
      * left. apply Panic_raised in H as (c' & R & E).
        inversion E as [| p p2 Hpk H2 Hn | | |]; subst.
        repeat split; auto. now exists p, p2.
      * right. inversion H; subst. repeat split; auto. now exists p1.
    + intros [(-> & N & p & p2 & R & Hpk & H2 & <-) | (-> & N & p1 & H1 & <-)].
      * apply parse_Panic. left. apply (reaches_Panic _ _ _ R).
        apply raises_Panic. now apply raises_unclosed.
      * apply parse_Panic. right. left. now exists p1.
  - intros p1 H1 E.
    assert (D : parse inp = Done (output p1 ++ [NUL]) \/
                parse inp = Panic OutputOverflow).
    { destruct (Nat.eq_dec (length (output p1)) (output_end p1)) as [Hc | Hc].
      - right. apply parse_Panic. right. right. now exists p1.
      - left. now apply parse_finish. }
    split; [exact D |]. intros expected got.
    destruct D as [-> | ->]; discriminate.
Qed.

(** An instance of the first situation: the group of ["(a"] is not closed
    when the input ends. *)
Lemma token_mismatch_witness :
  (")" = ")" /\ NUL <> ")" /\
   exists p p2,
     reaches (top (str "(a")) (Primary p) /\ peek_next_char p = "(" /\
     do_parse_expr (snd (next_char p)) 0 = Done p2 /\
     peek_next_char p2 = NUL) \/
  (")" = NUL /\ NUL <> NUL /\
   exists p1, result (top (str "(a")) = Done p1 /\ peek_next_char p1 = NUL).
Proof.
  apply (proj1 (proj1 (token_mismatch (str "(a")) ")" NUL)). reflexivity.
Defined.

(** C8 as it was stated fails on ["(a"]: [parse_primary] at ['('] is
    reached, its inner expression returns with every character of the input
    consumed and the cursor on the terminator, and [parse] panics with
    "expected ')', got" the terminator. *)
Lemma token_mismatch_counterexample :
  reaches (top (str "(a")) (Primary (mkParser (str "(a") [] MAX_OUTPUT)) /\
  do_parse_expr (snd (next_char (mkParser (str "(a") [] MAX_OUTPUT))) 0 =
    Done (mkParser [] (str "a") MAX_OUTPUT) /\
  peek_next_char (mkParser [] (str "a") MAX_OUTPUT) = NUL /\
  parse (str "(a") = Panic (TokenMismatch ")" NUL).
Proof.
  split; [| repeat split; reflexivity].
  apply (reaches_step _ (Primary (mkParser (str "(a") [] MAX_OUTPUT))).
  - apply invokes_primary.
  - apply reaches_here.
Qed.

(** The two situations, and an unclosed group inside a closed one. *)
Example unclosed_group :
  parse (str "(a+b") = Panic (TokenMismatch ")" NUL).
Proof. reflexivity. Qed.

Example unclosed_inner_group :
  parse (str "((a*b)c)") = Panic (TokenMismatch ")" "c").
Proof. reflexivity. Qed.

Example trailing_parenthesis :
  parse (str "a+b)") = Panic (TokenMismatch NUL ")").
Proof. reflexivity. Qed.

Example juxtaposed_variables :
  parse (str "ab") = Panic (TokenMismatch NUL "b").
Proof. reflexivity. Qed.

(** ** The capacity of the output buffer *)

Section Capacity.

(** The size of another buffer. *)
Variable cap : nat.

Lemma next_char_capacity (p : Parser) :
  next_char (set_output_end p cap) =
  (fst (next_char p), set_output_end (snd (next_char p)) cap).
Proof.
  unfold next_char. cbn [input set_output_end].
  destruct (Ascii.eqb _ _); reflexivity.
Qed.

Lemma emit_capacity (p p' : Parser) (ch : ascii) :
  emit p ch = Done p' -> length (output p) <= cap ->
  emit (set_output_end p cap) ch = capped cap p'.
Proof.
  intros H Hc. apply emit_Done in H as [_ ->]. unfold emit, capped.
  cbn [output output_end set_output set_output_end]. rewrite length_app.
  cbn [length].
  destruct (Nat.eqb_spec (length (output p)) cap);
    destruct (Nat.leb_spec (length (output p) + 1) cap); try lia; reflexivity.
Qed.

Lemma expect_capacity (p p' : Parser) (ch : ascii) :
  expect p ch = Done p' -> length (output p) <= cap ->
  expect (set_output_end p cap) ch = capped cap p' /\ output p' = output p.
Proof.
  intros H Hc. unfold expect in *. rewrite next_char_capacity.
  assert (O : output (snd (next_char p)) = output p).
  { unfold next_char. destruct (Ascii.eqb _ _); reflexivity. }
  destruct (next_char p) as [got q]. cbn [fst snd] in *.
  destruct (Ascii.eqb got ch); [| discriminate]. inversion H; subst.
  split; [| exact O]. unfold capped. rewrite O.
  destruct (Nat.leb_spec (length (output p)) cap); [reflexivity | lia].
Qed.

Lemma capped_bind (p2 p3 : Parser) (k : Parser -> outcome Parser) :
  length (output p2) <= length (output p3) ->
  (length (output p2) <= cap -> k (set_output_end p2 cap) = capped cap p3) ->
  bind (capped cap p2) k = capped cap p3.
Proof.
  intros Hg Hk. unfold capped at 1.
  destruct (Nat.leb_spec (length (output p2)) cap) as [L | L]; cbn [bind].
  - now apply Hk.
  - unfold capped. destruct (Nat.leb_spec (length (output p3)) cap); [lia | reflexivity].
Qed.

Lemma output_grows (n : nat) :
  (forall p p', parse_primary n p = Done p' ->
                length (output p) <= length (output p')) /\
  (forall p prec p', parse_expr n p prec = Done p' ->
                     length (output p) <= length (output p')) /\
  (forall p prec p', parse_expr_loop n p prec = Done p' ->
                     length (output p) <= length (output p')).
Proof.
  destruct (parse_run n) as (Hp & He & Hl). repeat split.
  - intros p p' H. apply Hp in H as (c & e & R & _). apply run_length in R. lia.
  - intros p prec p' H. apply He in H as (c & e & R & _). apply run_length in R. lia.
  - intros p prec p' H. apply Hl in H as (c & e & R & _). apply run_length in R. lia.
Qed.

(** A run that succeeds in some buffer does the same in any buffer that its
    output fits, and overflows any other. *)
Lemma parse_capacity (n : nat) :
  (forall p p', parse_primary n p = Done p' -> length (output p) <= cap ->
                parse_primary n (set_output_end p cap) = capped cap p') /\
  (forall p prec p', parse_expr n p prec = Done p' -> length (output p) <= cap ->
                     parse_expr n (set_output_end p cap) prec = capped cap p') /\
  (forall p prec p', parse_expr_loop n p prec = Done p' ->
                     length (output p) <= cap ->
                     parse_expr_loop n (set_output_end p cap) prec = capped cap p').
Proof.
  induction n as [| n (IHp & IHe & IHl)].
  - repeat split; intros; discriminate.
  - destruct (output_grows n) as (Gp & Ge & Gl).
    assert (O : forall p, output (snd (next_char p)) = output p).
    { intros p. unfold next_char. destruct (Ascii.eqb _ _); reflexivity. }
    repeat split.
    + intros p p' H Hc. rewrite parse_primary_S in *. cbv zeta in *.
      rewrite next_char_capacity. cbn [fst snd].
      destruct (Ascii.eqb _ "~").
      { apply bind_Done in H as (p2 & H1 & H2).
        rewrite (IHp _ _ H1) by now rewrite O.
        apply capped_bind.
        - apply emit_Done in H2 as [_ ->]. cbn [output set_output].
          rewrite length_app. lia.
        - intros L. now apply emit_capacity. }
      destruct (Ascii.eqb _ "(").
      { apply bind_Done in H as (p2 & H1 & H2).
        rewrite (IHe _ _ _ H1) by now rewrite O.
        apply capped_bind.
        - apply expect_Done in H2 as [_ ->]. now rewrite O.
        - intros L. now apply expect_capacity. }
      destruct (isalpha _); [| discriminate].
      apply emit_capacity; [exact H | now rewrite O].
    + intros p prec p' H Hc. rewrite parse_expr_S in *.
      apply bind_Done in H as (p1 & H1 & H2).
      rewrite (IHp _ _ H1 Hc). apply capped_bind; [now apply Gl in H2 |].
      intros L. now apply IHl.
    + intros p prec p' H Hc. rewrite parse_expr_loop_S in *. cbv zeta in *.
      change (peek_next_char (set_output_end p cap)) with (peek_next_char p).
      assert (Stay : Done (set_output_end p cap) = capped cap p).
      { unfold capped. destruct (Nat.leb_spec (length (output p)) cap);
          [reflexivity | lia]. }
      destruct (operator_info _) as [opi |]; [| now inversion H; subst].
      destruct (prec >=? _)%Z; [now inversion H; subst |].
      apply bind_Done in H as (p2 & H1 & H).
      apply bind_Done in H as (p3 & H2 & H3).
      rewrite next_char_capacity. cbn [snd].
      rewrite (IHe _ _ _ H1) by now rewrite O.
      assert (G23 : length (output p2) <= length (output p3)).
      { apply emit_Done in H2 as [_ ->]. cbn [output set_output].
        rewrite length_app. lia. }
      apply Gl in H3 as G3.
      apply capped_bind; [lia |]. intros L.
      rewrite (emit_capacity _ _ _ H2 L).
      apply capped_bind; [exact G3 |]. intros L3. now apply IHl.
Qed.

End Capacity.

Lemma set_output_end_same (p : Parser) : set_output_end p (output_end p) = p.
Proof. now destruct p. Qed.

(** A run never writes past the end of the buffer. *)
Lemma parse_expr_bounded (n : nat) (p p' : Parser) (prec : Z) :
  parse_expr n p prec = Done p' -> length (output p) <= output_end p ->
  output_end p' = output_end p /\ length (output p') <= output_end p'.
Proof.
  intros H Hc.
  pose proof (proj1 (proj2 (parse_capacity (output_end p) n)) p prec p' H Hc) as C.
  rewrite set_output_end_same, H in C. unfold capped in C.
  apply (proj1 (proj2 (parse_run n))) in H as (c & e & (_ & _ & E & _) & _).
  rewrite E. split; [reflexivity |].
  destruct (Nat.leb_spec (length (output p')) (output_end p)); [lia | discriminate].
Qed.

Lemma parse_buffer_Done (cap : nat) (inp out : list ascii) :
  parse_buffer cap inp = Done out ->
  exists p1,
    do_parse_expr (mkParser inp [] cap) 0 = Done p1 /\
    peek_next_char p1 = NUL /\
    length (output p1) <> output_end p1 /\
    out = output p1 ++ [NUL].
Proof.
  unfold parse_buffer. intros H.
  apply bind_Done in H as (p1 & H1 & H).
  apply bind_Done in H as (p2 & H2 & H).
  apply bind_Done in H as (p3 & H3 & H).
  apply expect_Done in H2 as [Hpk ->].
  rewrite (next_char_nul p1 Hpk) in H3. cbn [snd] in H3.
  apply emit_Done in H3 as [Hc ->]. inversion H; subst.
  exists p1. auto.
Qed.

(** C10.  The terminator goes through [emit] like any other character and
    takes one of the [MAX_OUTPUT = 1024] places: a successful [parse] has
    written at most 1023 characters and the terminator, never more than the
    buffer holds.  An input whose postfix form and terminator a larger buffer
    would hold gets from [parse] the same result when they fit 1024
    characters and the "output overflow" panic when they do not, also when
    only the terminator is in excess. *)
Theorem output_capacity :
  MAX_OUTPUT = 1024 /\
  (forall inp, parse inp = parse_buffer MAX_OUTPUT inp) /\
  (forall inp out,
      parse inp = Done out ->
      length out <= MAX_OUTPUT /\
      exists payload, out = payload ++ [NUL] /\ length payload <= 1023) /\
  (forall cap inp out,
      parse_buffer cap inp = Done out ->
      (length out <= MAX_OUTPUT -> parse inp = Done out) /\
      (MAX_OUTPUT < length out -> parse inp = Panic OutputOverflow)) /\
  (forall inp p1,
      do_parse_expr (mkParser inp [] MAX_OUTPUT) 0 = Done p1 ->
      peek_next_char p1 = NUL -> length (output p1) = MAX_OUTPUT ->
      parse inp = Panic OutputOverflow) /\
  (forall n p prec p',
      parse_expr n p prec = Done p' -> length (output p) <= output_end p ->
      length (output p') <= output_end p') /\
  parse (repeat "~" 1022 ++ ["a"]) = Done ("a" :: repeat "~" 1022 ++ [NUL]) /\
  parse (repeat "~" 1023 ++ ["a"]) = Panic OutputOverflow /\
  parse_buffer 1025 (repeat "~" 1023 ++ ["a"]) =
    Done ("a" :: repeat "~" 1023 ++ [NUL]).
Proof.
  split; [reflexivity |]. split; [reflexivity |].
  split; [| split; [| split; [| split]]].
  - intros inp out H. apply parse_Done in H as (p1 & H1 & _ & Hc & ->).
    apply parse_expr_bounded in H1 as [E L]; [| cbn; lia].
    cbn [output_end] in E. rewrite E in *. unfold MAX_OUTPUT in *.
    split.
    + rewrite length_app. cbn [length]. lia.
    + exists (output p1). split; [reflexivity | lia].
  - intros cap inp out H. apply parse_buffer_Done in H as (p1 & H1 & Hpk & Hc & ->).
    pose proof (proj1 (proj2 (parse_capacity MAX_OUTPUT _))
                  _ _ _ H1 (Nat.le_0_l _)) as C.
    change (parse_expr _ _ _)
      with (result (top inp)) in C.
    rewrite length_app. cbn [length]. unfold capped in C.
    destruct (Nat.leb_spec (length (output p1)) MAX_OUTPUT) as [L | L].
    + split; intros B.
      * apply (parse_finish inp (set_output_end p1 MAX_OUTPUT)); auto.
        cbn [output output_end set_output_end]. lia.
      * apply parse_Panic. right. right. exists (set_output_end p1 MAX_OUTPUT).
        repeat split; auto. cbn [output output_end set_output_end]. lia.
    + split; intros B; [lia |]. apply parse_Panic. now left.
  - intros inp p1 H1 Hpk Hc. apply parse_Panic. right. right. exists p1.
    repeat split; auto.
    apply parse_expr_bounded in H1 as [E _]; [| cbn; lia]. now rewrite E.
  - intros n p prec p' H Hc. now apply parse_expr_bounded in H.
  - repeat split; vm_compute; reflexivity.
Qed.

(** An instance: 600 variables joined by [+] make 1199 characters of
    postfix, which 1024 places cannot hold. *)
Lemma output_capacity_witness :
  parse ("a" :: infix_chain (repeat ("+", "b") 599)) = Panic OutputOverflow.
Proof.
  apply (proj2 (proj1 (proj2 (proj2 (proj2 output_capacity))) 2000
           ("a" :: infix_chain (repeat ("+", "b") 599))
           ("a" :: postfix_left (repeat ("+", "b") 599) ++ [NUL])
           ltac:(vm_compute; reflexivity))).
  vm_compute. lia.
Defined.

(** * Part III: further properties *)

(** ** Trees parsed and trees written *)

Ltac split_andb :=
  repeat match goal with
    | H : (_ && _)%bool = true |- _ => apply andb_prop in H as [? ?]
    end.

Ltac list_eq := cbn [app]; rewrite <- ?app_assoc; cbn [app]; reflexivity.

Lemma stops_higher (f f' : Z) (ch : ascii) :
  stops f ch = true -> (f <= f')%Z -> stops f' ch = true.
Proof.
  unfold stops. destruct (operator_info ch) as [opi |]; [| reflexivity].
  rewrite !Z.geb_le. lia.
Qed.

Lemma stops_other (f : Z) (ch : ascii) :
  operator_info ch = None -> stops f ch = true.
Proof. unfold stops. now intros ->. Qed.

(** The head of a well-formed operand, against the spines. *)
Lemma above_head (f : Z) (t : expr) :
  well_formed t = true -> head_ok (fun opi' => (f <? precedence opi')%Z) t = true ->
  above f t = true.
Proof.
  induction t as [x | e IH | e IH | o l IHl r IHr]; try reflexivity.
  cbn [well_formed head_ok above].
  destruct (operator_info o) as [opi |]; [| discriminate].
  intros W H. split_andb. rewrite H. cbn [andb]. apply IHl; [assumption |].
  destruct l as [| | | o' l' r']; try reflexivity.
  cbn [head_ok] in *. destruct (operator_info o') as [opi' |]; [| discriminate].
  unfold heads_left in *. apply Z.ltb_lt in H. apply Z.ltb_lt.
  apply orb_prop in H2 as [L | L].
  - apply Z.ltb_lt in L. lia.
  - apply andb_prop in L as [L _]. apply Z.eqb_eq in L. lia.
Qed.

Lemma closes_head (next : ascii) (t : expr) :
  well_formed t = true ->
  head_ok (fun opi' => stops (operand_floor opi') next) t = true ->
  closes t next = true.
Proof.
  induction t as [x | e IH | e IH | o l IHl r IHr]; try reflexivity.
  cbn [well_formed head_ok closes].
  destruct (operator_info o) as [opi |]; [| discriminate].
  intros W H. split_andb. rewrite H. cbn [andb]. apply IHr; [assumption |].
  destruct r as [| | | o' l' r']; try reflexivity.
  cbn [head_ok] in *. destruct (operator_info o') as [opi' |]; [| discriminate].
  apply (stops_higher _ _ _ H).
  unfold heads_right, operand_floor in *.
  apply orb_prop in H1 as [L | L].
  - apply Z.ltb_lt in L.
    destruct (right_associative opi), (right_associative opi'); lia.
  - apply andb_prop in L as [L R]. apply Z.eqb_eq in L. rewrite R.
    destruct (right_associative opi'); lia.
Qed.

Lemma well_formed_no_nul (t : expr) : well_formed t = true -> ~ In NUL (infix t).
Proof.
  induction t as [x | e IH | e IH | o l IHl r IHr]; cbn [well_formed infix].
  - intros H [E | []]. subst. discriminate.
  - intros H. split_andb. intros [E | I]; [discriminate | now apply IH].
  - intros H [E | I]; [discriminate |].
    apply in_app_or in I as [I | [E | []]]; [now apply IH | discriminate].
  - destruct (operator_info o) as [opi |] eqn:Ho; [| discriminate].
    intros H. split_andb. intros I.
    apply in_app_or in I as [I | [E | I]]; [now apply IHl | | now apply IHr].
    subst. discriminate.
Qed.

(** What a successful run has parsed. *)
Lemma parse_tree (n : nat) :
  (forall p p', parse_primary n p = Done p' ->
     exists t, is_primary t = true /\ well_formed t = true /\
               input p = infix t ++ input p' /\
               output p' = output p ++ postfix t) /\
  (forall p prec p', parse_expr n p prec = Done p' ->
     exists t, well_formed t = true /\ above prec t = true /\
               closes t (peek_next_char p') = true /\
               stops prec (peek_next_char p') = true /\
               input p = infix t ++ input p' /\
               output p' = output p ++ postfix t) /\
  (forall p prec p' l, parse_expr_loop n p prec = Done p' ->
     well_formed l = true -> above prec l = true ->
     closes l (peek_next_char p) = true ->
     exists t consumed emitted,
       well_formed t = true /\ above prec t = true /\
       closes t (peek_next_char p') = true /\
       stops prec (peek_next_char p') = true /\
       input p = consumed ++ input p' /\
       output p' = output p ++ emitted /\
       infix t = infix l ++ consumed /\
       postfix t = postfix l ++ emitted).
Proof.
  induction n as [| n (IHp & IHe & IHl)].
  - repeat split; intros; discriminate.
  - repeat split.
    + intros p p' H.
      destruct (next_char_cases p) as [[Hpk _] | (c & rest & Hc & Hin & Hnc)].
      { rewrite (parse_primary_nul n p Hpk) in H. discriminate. }
      rewrite parse_primary_S, Hnc in H. cbn [fst snd] in H. cbv zeta in H.
      destruct (Ascii.eqb_spec c "~") as [-> | _].
      { apply bind_Done in H as (p2 & H1 & H2).
        apply IHp in H1 as (t & Pt & Wt & It & Ot).
        apply emit_Done in H2 as [_ ->]. exists (Unary t).
        cbn [is_primary well_formed infix postfix input output set_output
             set_input] in *.
        rewrite Pt, Wt, Hin, It, Ot. repeat split; auto.
        now rewrite <- app_assoc. }
      destruct (Ascii.eqb_spec c "(") as [-> | _].
      { apply bind_Done in H as (p2 & H1 & H2).
        apply IHe in H1 as (t & Wt & _ & _ & _ & It & Ot).
        apply expect_Done in H2 as [Hpk ->].
        destruct (next_char_cases p2) as [[Hpk' _] | (c' & rest' & Hc' & Hin' & Hnc')].
        { rewrite Hpk in Hpk'. discriminate. }
        assert (c' = ")") as -> by (unfold peek_next_char in Hpk; now rewrite Hin' in Hpk).
        rewrite Hnc'. exists (Group t).
        cbn [is_primary well_formed infix postfix input output set_output
             set_input snd] in *.
        rewrite Wt, Hin, It, Ot, Hin'. repeat split; auto.
        cbn [app]. now rewrite <- app_assoc. }
      destruct (isalpha c) eqn:Ha; [| discriminate].
      apply emit_Done in H as [_ ->]. exists (Var c).
      cbn [is_primary well_formed infix postfix input output set_output
           set_input]. rewrite Ha, Hin. auto.
    + intros p prec p' H. rewrite parse_expr_S in H.
      apply bind_Done in H as (p1 & H1 & H2).
      apply IHp in H1 as (l & Pl & Wl & Il & Ol).
      assert (Al : above prec l = true) by (destruct l; auto; discriminate).
      assert (Cl : closes l (peek_next_char p1) = true)
        by (destruct l; auto; discriminate).
      destruct (IHl _ _ _ l H2 Wl Al Cl) as (t & c & e & Wt & At & Ct & St & I & O & It & Ot).
      exists t. repeat split; auto.
      * now rewrite Il, I, It, app_assoc.
      * now rewrite O, Ol, Ot, app_assoc.
    + intros p prec p' l H Wl Al Cl. rewrite parse_expr_loop_S in H. cbv zeta in H.
      assert (Stay : stops prec (peek_next_char p) = true ->
                     Done p = Done p' ->
                     exists t consumed emitted,
                       well_formed t = true /\ above prec t = true /\
                       closes t (peek_next_char p') = true /\
                       stops prec (peek_next_char p') = true /\
                       input p = consumed ++ input p' /\
                       output p' = output p ++ emitted /\
                       infix t = infix l ++ consumed /\
                       postfix t = postfix l ++ emitted).
      { intros S E. inversion E; subst p'. exists l, [], [].
        rewrite !app_nil_r. repeat split; auto. }
      destruct (operator_info (peek_next_char p)) as [opi |] eqn:Hop.
      2:{ apply Stay; [| exact H]. now apply stops_other. }
      destruct (prec >=? precedence opi)%Z eqn:Hge.
      { apply Stay; [| exact H]. unfold stops. now rewrite Hop. }
      apply bind_Done in H as (p2 & H1 & H).
      apply bind_Done in H as (p3 & H2 & H3).
      pose proof (operator_info_not_nul _ _ Hop) as Hnul.
      destruct (next_char_cases p) as [[Hpk _] | (o & rest & Hc & Hin & Hnc)];
        [contradiction |].
      assert (peek_next_char p = o) as Hpk by (unfold peek_next_char; now rewrite Hin).
      rewrite Hpk in *. rewrite Hnc in H1. cbn [snd] in H1.
      fold (operand_floor opi) in H1.
      apply IHe in H1 as (r & Wr & Ar & Cr & Sr & Ir & Or).
      apply emit_Done in H2 as [_ ->].
      assert (Wt : well_formed (Binary o l r) = true).
      { cbn [well_formed]. rewrite Hop, Wl, Wr. cbn [andb].
        apply andb_true_intro. split.
        - destruct l as [| | | o' l' r']; auto. cbn [closes head_ok above] in *.
          destruct (operator_info o') as [opi' |]; [| discriminate].
          split_andb. unfold stops in *. rewrite Hop in *.
          unfold heads_left, operand_floor in *.
          match goal with S : (_ >=? _)%Z = true |- _ => apply Z.geb_le in S end.
          destruct (right_associative opi'); cbn [negb andb orb].
          + rewrite andb_false_r, orb_false_r. apply Z.ltb_lt. lia.
          + rewrite andb_true_r.
            destruct (Z.ltb_spec (precedence opi) (precedence opi')); auto.
            apply Z.eqb_eq. lia.
        - destruct r as [| | | o' l' r']; auto. cbn [closes head_ok above] in *.
          destruct (operator_info o') as [opi' |]; [| discriminate].
          split_andb. unfold heads_right, operand_floor in *.
          match goal with S : (_ <? _)%Z = true |- _ => apply Z.ltb_lt in S end.
          destruct (right_associative opi); cbn [negb andb orb].
          + rewrite andb_true_r.
            destruct (Z.ltb_spec (precedence opi) (precedence opi')); auto.
            apply Z.eqb_eq. lia.
          + rewrite andb_false_r, orb_false_r. apply Z.ltb_lt. lia. }
      assert (At : above prec (Binary o l r) = true).
      { cbn [above]. rewrite Hop, Al, andb_true_r. apply Z.ltb_lt.
        destruct (Z.geb_spec prec (precedence opi)); [discriminate | lia]. }
      assert (Ct : closes (Binary o l r)
                     (peek_next_char (set_output p2 (output p2 ++ [o]))) = true).
      { cbn [closes]. rewrite Hop. change (peek_next_char (set_output p2 _))
          with (peek_next_char p2). now rewrite Sr, Cr. }
      destruct (IHl _ _ _ _ H3 Wt At Ct)
        as (t & c & e & Wt' & At' & Ct' & St' & I & O & It & Ot).
      exists t, (o :: infix r ++ c), (postfix r ++ o :: e).
      cbn [input output set_input set_output infix postfix] in *.
      repeat split; auto.
      * rewrite Hin, Ir, I. list_eq.
      * rewrite O, Or. list_eq.
      * rewrite It. list_eq.
      * rewrite Ot. list_eq.
Qed.

Lemma loop_stops (inp out : list ascii) (cap : nat) (f : Z) :
  stops f (hd NUL inp) = true ->
  do_parse_expr_loop (mkParser inp out cap) f = Done (mkParser inp out cap).
Proof.
  unfold stops. destruct (operator_info (hd NUL inp)) as [opi |] eqn:Hop.
  - intros H. apply Z.geb_le in H. now apply do_parse_expr_loop_low with opi.
  - intros _. now apply do_parse_expr_loop_other.
Qed.

Lemma above_zero (t : expr) : well_formed t = true -> above 0 t = true.
Proof.
  intros W. apply above_head; [exact W |].
  destruct t as [| | | o l r]; try reflexivity. cbn [well_formed head_ok] in *.
  destruct (operator_info o) as [opi |] eqn:Ho; [| discriminate].
  apply operator_info_cases in Ho as [[_ ->] | [[_ ->] | [_ ->]]]; reflexivity.
Qed.

Lemma closes_other (t : expr) (next : ascii) :
  well_formed t = true -> operator_info next = None -> closes t next = true.
Proof.
  intros W N. apply closes_head; [exact W |].
  destruct t as [| | | o l r]; try reflexivity. cbn [well_formed head_ok] in *.
  destruct (operator_info o) as [opi |]; [| discriminate].
  now apply stops_other.
Qed.

(** A well-formed tree is parsed as it is written. *)
Lemma tree_parses (t : expr) :
  well_formed t = true ->
  (is_primary t = true ->
   forall rest out cap,
     length out + length (postfix t) <= cap ->
     do_parse_primary (mkParser (infix t ++ rest) out cap) =
     Done (mkParser rest (out ++ postfix t) cap)) /\
  (forall f rest out cap,
     above f t = true -> closes t (hd NUL rest) = true ->
     length out + length (postfix t) <= cap ->
     do_parse_expr (mkParser (infix t ++ rest) out cap) f =
     do_parse_expr_loop (mkParser rest (out ++ postfix t) cap) f).
Proof.
  assert (from_primary : forall t,
    (forall rest out cap,
       length out + length (postfix t) <= cap ->
       do_parse_primary (mkParser (infix t ++ rest) out cap) =
       Done (mkParser rest (out ++ postfix t) cap)) ->
    forall f rest out cap,
      length out + length (postfix t) <= cap ->
      do_parse_expr (mkParser (infix t ++ rest) out cap) f =
      do_parse_expr_loop (mkParser rest (out ++ postfix t) cap) f).
  { intros t0 P f rest out cap Hc. now rewrite do_parse_expr_unfold, P. }
  induction t as [x | e IH | e IH | o l IHl r IHr]; cbn [well_formed]; intros W.
  - assert (P : forall rest out cap,
               length out + length (postfix (Var x)) <= cap ->
               do_parse_primary (mkParser (infix (Var x) ++ rest) out cap) =
               Done (mkParser rest (out ++ postfix (Var x)) cap)).
    { intros rest out cap Hc. cbn [infix postfix app length] in *.
      apply primary_variable; [exact W | lia]. }
    split; [intros _; exact P | intros f rest out cap _ _; now apply from_primary].
  - split_andb. destruct (IH H0) as [IHp _]. specialize (IHp H).
    assert (P : forall rest out cap,
               length out + length (postfix (Unary e)) <= cap ->
               do_parse_primary (mkParser (infix (Unary e) ++ rest) out cap) =
               Done (mkParser rest (out ++ postfix (Unary e)) cap)).
    { intros rest out cap Hc. cbn [infix postfix app] in *.
      rewrite length_app in Hc. cbn [length] in Hc.
      rewrite primary_unary, IHp by lia. cbn [bind].
      rewrite emit_room by (rewrite length_app; lia). now rewrite app_assoc. }
    split; [intros _; exact P | intros f rest out cap _ _; now apply from_primary].
  - destruct (IH W) as [_ IHe].
    assert (P : forall rest out cap,
               length out + length (postfix (Group e)) <= cap ->
               do_parse_primary (mkParser (infix (Group e) ++ rest) out cap) =
               Done (mkParser rest (out ++ postfix (Group e)) cap)).
    { intros rest out cap Hc. cbn [infix postfix app] in *.
      rewrite <- app_assoc. cbn [app].
      rewrite primary_group.
      rewrite IHe;
        [| now apply above_zero | now apply closes_other | exact Hc].
      rewrite loop_stop by reflexivity. cbn [bind].
      now rewrite expect_next by discriminate. }
    split; [intros _; exact P | intros f rest out cap _ _; now apply from_primary].
  - split; [discriminate |].
    destruct (operator_info o) as [opi |] eqn:Ho; [| discriminate].
    split_andb. destruct (IHl H) as [_ El]. destruct (IHr H2) as [_ Er].
    intros f rest out cap A C Hc. cbn [above closes infix postfix] in *.
    rewrite Ho in *. split_andb.
    rewrite !length_app in Hc. cbn [length] in Hc.
    rewrite <- app_assoc. cbn [app].
    rewrite El; [| assumption | | lia].
    2:{ apply closes_head; [assumption |]. cbn [hd].
        destruct l as [| | | o' l' r']; try reflexivity. cbn [head_ok] in *.
        destruct (operator_info o') as [opi' |]; [| discriminate].
        unfold stops. rewrite Ho. apply Z.geb_le.
        unfold heads_left, operand_floor in *.
        match goal with X : (_ || _)%bool = true |- _ =>
          apply orb_prop in X as [L | L] end.
        - apply Z.ltb_lt in L. destruct (right_associative opi'); lia.
        - apply andb_prop in L as [L R]. apply Z.eqb_eq in L.
          destruct (right_associative opi'); [discriminate | lia]. }
    match goal with A : (f <? _)%Z = true |- _ => apply Z.ltb_lt in A end.
    rewrite (loop_high o opi) by assumption.
    rewrite Er; [| | assumption | rewrite length_app; lia].
    2:{ apply above_head; [assumption |].
        destruct r as [| | | o' l' r']; try reflexivity. cbn [head_ok] in *.
        destruct (operator_info o') as [opi' |]; [| discriminate].
        apply Z.ltb_lt. unfold heads_right, operand_floor in *.
        match goal with X : (_ || _)%bool = true |- _ =>
          apply orb_prop in X as [L | L] end.
        - apply Z.ltb_lt in L. destruct (right_associative opi); lia.
        - apply andb_prop in L as [L R]. apply Z.eqb_eq in L. rewrite R. lia. }
    rewrite loop_stops by assumption. cbn [bind].
    rewrite emit_room by (rewrite !length_app; lia). cbn [bind].
    now rewrite <- !app_assoc.
Qed.

Lemma parse_Done_tree (inp out : list ascii) :
  parse inp = Done out ->
  exists t, well_formed t = true /\ infix t = c_str inp /\
            out = postfix t ++ [NUL].
Proof.
  intros H. apply parse_Done in H as (p1 & H1 & Hpk & _ & ->).
  unfold do_parse_expr in H1.
  apply (proj1 (proj2 (parse_tree _))) in H1 as (t & W & _ & _ & _ & I & O).
  cbn [input output app] in I, O. exists t. rewrite O.
  repeat split; auto. rewrite I. symmetry.
  apply c_str_consumed; [now apply well_formed_no_nul | exact Hpk].
Qed.

Lemma tree_parse_expr (t : expr) (cap : nat) :
  well_formed t = true -> length (postfix t) <= cap ->
  do_parse_expr (mkParser (infix t) [] cap) 0 =
  Done (mkParser [] (postfix t) cap).
Proof.
  intros W Hc. destruct (tree_parses t W) as [_ E].
  rewrite <- (app_nil_r (infix t)).
  rewrite E; [now apply loop_stop | now apply above_zero | | exact Hc].
  now apply closes_other.
Qed.

(** ** The language of [parse] *)

(** X1.  When [parse] succeeds, the input string is a well-formed tree
    written in infix, and the output is the postfix form, with its
    terminator, of every well-formed tree that the input is the infix form
    of: however the input is read within the rules of precedence and
    associativity, the output is that reading's postfix form. *)
Theorem parse_sound (inp out : list ascii) :
  parse inp = Done out ->
  (exists t, well_formed t = true /\ infix t = c_str inp) /\
  (forall t, well_formed t = true -> infix t = c_str inp ->
             out = postfix t ++ [NUL]).
Proof.
  intros H. split.
  { apply parse_Done_tree in H as (t & W & I & _). now exists t. }
  intros t W I.
  pose proof H as H'. apply parse_Done_tree in H' as (t' & W' & I' & _).
  apply parse_Done in H as (p1 & H1 & Hpk & _ & ->). f_equal.
  unfold do_parse_expr in H1. cbn [input] in H1.
  pose proof (proj1 (proj2 (parse_tree _)) _ _ _ H1) as (t1 & W1 & _ & _ & _ & I1 & O1).
  cbn [input output app] in I1, O1.
  assert (E1 : infix t1 = infix t).
  { rewrite I, I1. symmetry.
    apply c_str_consumed; [now apply well_formed_no_nul | exact Hpk]. }
  set (cap := length (postfix t) + length (output p1)).
  apply (proj1 (proj2 (parse_capacity cap _))) in H1; [| cbn; lia].
  unfold capped in H1.
  destruct (Nat.leb_spec (length (output p1)) cap) as [_ | L]; [| lia].
  rewrite do_parse_expr_eq in H1 by (cbn; unfold fuel_for; lia).
  unfold set_output_end in H1 at 1. cbn [input output] in H1.
  destruct (tree_parses t W) as [_ E].
  rewrite I1, E1, E in H1; [| now apply above_zero | | cbn; lia].
  2:{ apply closes_other; [exact W |]. fold (peek_next_char p1). now rewrite Hpk. }
  rewrite loop_stop in H1 by (fold (peek_next_char p1); now rewrite Hpk).
  inversion H1. reflexivity.
Qed.

(** An instance: ["a+b*c"]. *)
Lemma parse_sound_witness :
  (exists t, well_formed t = true /\ infix t = c_str (str "a+b*c")) /\
  (forall t, well_formed t = true -> infix t = c_str (str "a+b*c") ->
             terminated "abc*+" = postfix t ++ [NUL]).
Proof. apply (parse_sound (str "a+b*c")). reflexivity. Defined.

(** X2.  The infix form of a well-formed tree parses to its postfix form
    and the terminator when the postfix form is shorter than the buffer, and
    overflows the output otherwise. *)
Theorem parse_complete (t : expr) :
  well_formed t = true ->
  (length (postfix t) < MAX_OUTPUT ->
   parse (infix t) = Done (postfix t ++ [NUL])) /\
  (MAX_OUTPUT <= length (postfix t) ->
   parse (infix t) = Panic OutputOverflow).
Proof.
  intros W. split; intros Hc.
  - pose proof (tree_parse_expr t MAX_OUTPUT W (Nat.lt_le_incl _ _ Hc)) as E.
    apply parse_finish in E; [exact E | reflexivity |].
    cbn [output output_end]. lia.
  - pose proof (tree_parse_expr t (length (postfix t)) W (le_n _)) as E.
    unfold do_parse_expr in E. cbn [input] in E.
    apply (proj1 (proj2 (parse_capacity MAX_OUTPUT _))) in E; [| cbn; lia].
    unfold capped in E. cbn [output set_output_end input] in E.
    apply parse_Panic.
    destruct (Nat.leb_spec (length (postfix t)) MAX_OUTPUT) as [L | L].
    + right. right. eexists. split; [exact E |]. cbn. repeat split; lia.
    + left. exact E.
Qed.

(** An instance: the tree of ["x=~y-(z=w)"]. *)
Lemma parse_complete_witness :
  (length (postfix (Binary "=" (Var "x") (Binary "-" (Unary (Var "y")) (Group (Binary "=" (Var "z") (Var "w")))))) < MAX_OUTPUT ->
   parse (str "x=~y-(z=w)") = Done (terminated "xy~zw=-=")) /\
  (MAX_OUTPUT <= length (postfix (Binary "=" (Var "x") (Binary "-" (Unary (Var "y")) (Group (Binary "=" (Var "z") (Var "w")))))) ->
   parse (str "x=~y-(z=w)") = Panic OutputOverflow).
Proof.
  apply (parse_complete
           (Binary "=" (Var "x")
              (Binary "-" (Unary (Var "y"))
                 (Group (Binary "=" (Var "z") (Var "w")))))).
  reflexivity.
Defined.

(** X3.  A [parse_primary] that returns has consumed a primary expression
    from the front of the input, and a [parse_expr] that returns a
    well-formed tree whose operators, down its left spine, are above the
    floor; each has appended the postfix form to the output and left the end
    of the buffer where it was; and [parse_expr] returns at a character at
    which its loop stops: one that is no operator, or an operator not above
    the floor. *)
Theorem procedures_parse_trees :
  (forall n p p',
      parse_primary n p = Done p' ->
      output_end p' = output_end p /\
      exists t,
        is_primary t = true /\ well_formed t = true /\
        input p = infix t ++ input p' /\
        output p' = output p ++ postfix t) /\
  (forall n p prec p',
      parse_expr n p prec = Done p' ->
      stops prec (peek_next_char p') = true /\
      output_end p' = output_end p /\
      exists t,
        well_formed t = true /\ above prec t = true /\
        input p = infix t ++ input p' /\
        output p' = output p ++ postfix t).
Proof.
  split.
  - intros n p p' H.
    pose proof (proj1 (parse_run n) _ _ H) as (c & e & (_ & _ & E & _) & _).
    apply (proj1 (parse_tree n)) in H as (t & P & W & I & O).
    split; [exact E |]. now exists t.
  - intros n p prec p' H.
    pose proof (proj1 (proj2 (parse_run n)) _ _ _ H) as (c & e & (_ & _ & E & _) & _).
    apply (proj1 (proj2 (parse_tree n))) in H as (t & W & A & _ & S & I & O).
    repeat split; auto. now exists t.
Qed.

(** An instance: [parse_expr] with floor 10 on ["a*b+c"] stops at [+]. *)
Lemma procedures_parse_trees_witness :
  stops 10 "+" = true /\
  MAX_OUTPUT = MAX_OUTPUT /\
  exists t,
    well_formed t = true /\ above 10 t = true /\
    str "a*b+c" = infix t ++ str "+c" /\
    str "ab*" = [] ++ postfix t.
Proof.
  apply (proj2 procedures_parse_trees 20
           (mkParser (str "a*b+c") [] MAX_OUTPUT) 10%Z
           (mkParser (str "+c") (str "ab*") MAX_OUTPUT)).
  reflexivity.
Defined.

(** ** The output on a stack machine *)

Lemma rpn_postfix (val : Type) (var : ascii -> val) (un : val -> val)
      (bin : ascii -> val -> val -> val) (t : expr) :
  well_formed t = true ->
  forall code stack,
    rpn val var un bin (postfix t ++ code) stack =
    rpn val var un bin code (eval val var un bin t :: stack).
Proof.
  induction t as [x | e IH | e IH | o l IHl r IHr]; cbn [well_formed postfix eval];
    intros W code stack.
  - cbn [app rpn]. now rewrite W.
  - split_andb. rewrite <- app_assoc, IH by assumption. reflexivity.
  - now apply IH.
  - destruct (operator_info o) as [opi |] eqn:Ho; [| discriminate]. split_andb.
    rewrite <- !app_assoc, IHl, IHr by assumption. cbn [app rpn].
    assert (isalpha o = false) as ->.
    { destruct (isalpha o) eqn:Ha; [| reflexivity].
      apply isalpha_not_special in Ha as (_ & _ & _ & N). congruence. }
    assert (Ascii.eqb o "~" = false) as ->.
    { destruct (Ascii.eqb_spec o "~") as [-> | _]; [discriminate Ho | reflexivity]. }
    now rewrite Ho.
Qed.

Lemma postfix_no_nul (t : expr) : well_formed t = true -> ~ In NUL (postfix t).
Proof.
  induction t as [x | e IH | e IH | o l IHl r IHr]; cbn [well_formed postfix].
  - intros H [E | []]. subst. discriminate.
  - intros H. split_andb. intros I.
    apply in_app_or in I as [I | [E | []]]; [now apply IH | discriminate].
  - exact IH.
  - destruct (operator_info o) as [opi |] eqn:Ho; [| discriminate].
    intros H. split_andb. intros I.
    apply in_app_or in I as [I | I]; [now apply IHl |].
    apply in_app_or in I as [I | [E | []]]; [now apply IHr |].
    subst. discriminate.
Qed.

(** X4.  Under any interpretation of the variables, of ['~'] and of the
    binary operators, the output of a successful [parse], run as a
    reverse-polish string on an empty stack, leaves one value: the value of
    a well-formed tree that the input is the infix form of. *)
Theorem parse_evaluates (val : Type) (var : ascii -> val) (un : val -> val)
        (bin : ascii -> val -> val -> val) (inp out : list ascii) :
  parse inp = Done out ->
  exists t,
    well_formed t = true /\ infix t = c_str inp /\
    rpn val var un bin (c_str out) [] = Some [eval val var un bin t].
Proof.
  intros H. apply parse_Done_tree in H as (t & W & I & ->).
  exists t. repeat split; auto.
  rewrite c_str_consumed by (auto using postfix_no_nul).
  rewrite <- (app_nil_r (postfix t)). now rewrite rpn_postfix.
Qed.

(** An instance over the integers, [-] and [*] as they are and ['~'] as
    the opposite. *)
Lemma parse_evaluates_witness :
  exists t,
    well_formed t = true /\ infix t = c_str (str "a-b*~c") /\
    rpn Z (fun x => Z.of_N (N_of_ascii x)) Z.opp
      (fun o a b => if Ascii.eqb o "-" then a - b else a * b)%Z
      (c_str (terminated "abc~*-")) [] =
    Some [eval Z (fun x => Z.of_N (N_of_ascii x)) Z.opp
            (fun o a b => if Ascii.eqb o "-" then a - b else a * b)%Z t].
Proof.
  apply (parse_evaluates Z (fun x => Z.of_N (N_of_ascii x)) Z.opp
           (fun o a b => if Ascii.eqb o "-" then a - b else a * b)%Z
           (str "a-b*~c")).
  reflexivity.
Defined.

(** ** The shape of an accepted input *)

Lemma infix_tokens (t : expr) :
  well_formed t = true -> forallb token (infix t) = true.
Proof.
  induction t as [x | e IH | e IH | o l IHl r IHr]; cbn [well_formed infix].
  - intros W. cbn [forallb]. unfold token. now rewrite W.
  - intros W. split_andb. cbn [forallb]. now rewrite IH.
  - intros W. cbn [forallb]. rewrite forallb_app, IH by assumption. reflexivity.
  - destruct (operator_info o) as [opi |] eqn:Ho; [| discriminate].
    intros W. split_andb. rewrite forallb_app. cbn [forallb].
    rewrite IHl, IHr by assumption. unfold token. rewrite Ho.
    now rewrite !orb_true_r.
Qed.

Lemma infix_nesting (t : expr) :
  well_formed t = true ->
  forall rest depth, nesting (infix t ++ rest) depth = nesting rest depth.
Proof.
  induction t as [x | e IH | e IH | o l IHl r IHr]; cbn [well_formed infix];
    intros W rest depth.
  - cbn [app nesting]. apply isalpha_not_grouping in W. unfold grouping in W.
    apply orb_false_elim in W as [-> ->]. reflexivity.
  - split_andb. cbn [app nesting Ascii.eqb Bool.eqb]. now apply IH.
  - cbn [app nesting Ascii.eqb Bool.eqb]. rewrite <- app_assoc, IH by assumption.
    reflexivity.
  - destruct (operator_info o) as [opi |] eqn:Ho; [| discriminate]. split_andb.
    rewrite <- app_assoc, IHl by assumption. cbn [app nesting].
    apply operator_not_grouping in Ho. unfold grouping in Ho.
    apply orb_false_elim in Ho as [-> ->]. now apply IHr.
Qed.

(** X5.  An input on which [parse] succeeds is made of letters, ['~'],
    the five operators and parentheses only, and its parentheses are
    balanced: none is closed that was not opened, and none is left open. *)
Theorem parse_balanced (inp out : list ascii) :
  parse inp = Done out ->
  forallb token (c_str inp) = true /\ nesting (c_str inp) 0 = Some 0.
Proof.
  intros H. apply parse_Done_tree in H as (t & W & <- & _). split.
  - now apply infix_tokens.
  - rewrite <- (app_nil_r (infix t)). now rewrite infix_nesting.
Qed.

(** An instance with nested groups. *)
Lemma parse_balanced_witness :
  forallb token (c_str (str "((a+b)*~(c))")) = true /\
  nesting (c_str (str "((a+b)*~(c))")) 0 = Some 0.
Proof.
  apply (parse_balanced (str "((a+b)*~(c))") (terminated "ab+c~*")).
  reflexivity.
Defined.

(** ** Composing inputs *)

Lemma parse_Done_payload (inp payload : list ascii) :
  parse inp = Done (payload ++ [NUL]) ->
  exists t, well_formed t = true /\ infix t = c_str inp /\
            postfix t = payload /\ length payload < MAX_OUTPUT.
Proof.
  intros H. pose proof H as H'.
  apply parse_Done_tree in H as (t & W & I & E).
  apply app_inv_tail in E. subst payload. exists t. repeat split; auto.
  apply parse_Done in H' as (p1 & H1 & _ & Hc & E).
  apply app_inv_tail in E. rewrite E.
  apply parse_expr_bounded in H1 as [Hend L]; [| cbn; lia].
  cbn [output_end] in Hend. rewrite Hend in *. lia.
Qed.

Lemma tree_parse (t : expr) :
  well_formed t = true -> length (postfix t) < MAX_OUTPUT ->
  parse (infix t) = Done (postfix t ++ [NUL]).
Proof.
  intros W Hc.
  pose proof (tree_parse_expr t MAX_OUTPUT W (Nat.lt_le_incl _ _ Hc)) as E.
  apply parse_finish in E; [exact E | reflexivity |].
  cbn [output output_end]. lia.
Qed.

(** X6.  Inputs that parse compose under parentheses: an input in
    parentheses gives the same output; ['~'] before it in parentheses gives
    its output followed by ['~']; two of them in parentheses around a binary
    operator give their outputs followed by the operator; the latter two
    when the result fits the buffer. *)
Theorem parse_compose (a b pa pb : list ascii) :
  parse a = Done (pa ++ [NUL]) -> parse b = Done (pb ++ [NUL]) ->
  parse ("(" :: c_str a ++ [")"]) = Done (pa ++ [NUL]) /\
  (length pa + 1 < MAX_OUTPUT ->
   parse ("~" :: "(" :: c_str a ++ [")"]) = Done (pa ++ ["~"; NUL])) /\
  (forall o,
      operator_info o <> None -> length pa + length pb + 1 < MAX_OUTPUT ->
      parse ("(" :: c_str a ++ ")" :: o :: "(" :: c_str b ++ [")"]) =
      Done (pa ++ pb ++ [o; NUL])).
Proof.
  intros Ha Hb.
  apply parse_Done_payload in Ha as (ta & Wa & Ia & Pa & La).
  apply parse_Done_payload in Hb as (tb & Wb & Ib & Pb & Lb).
  rewrite <- Ia, <- Ib, <- Pa, <- Pb in *. split; [| split].
  - apply (tree_parse (Group ta)); assumption.
  - intros Hc.
    assert (L : length (postfix (Unary (Group ta))) < MAX_OUTPUT).
    { cbn [postfix]. rewrite length_app. cbn [length]. lia. }
    pose proof (tree_parse (Unary (Group ta)) Wa L) as E.
    cbn [infix postfix] in E. now rewrite <- app_assoc in E.
  - intros o Ho Hc.
    destruct (operator_info o) as [opi |] eqn:Hop; [| contradiction].
    assert (W : well_formed (Binary o (Group ta) (Group tb)) = true).
    { cbn [well_formed head_ok]. now rewrite Hop, Wa, Wb. }
    assert (L : length (postfix (Binary o (Group ta) (Group tb))) < MAX_OUTPUT).
    { cbn [postfix]. rewrite !length_app. cbn [length]. lia. }
    pose proof (tree_parse _ W L) as E.
    cbn [infix postfix app] in E.
    rewrite <- !app_assoc in E. cbn [app] in E. exact E.
Qed.

(** An instance: ["a+b"] and ["c=d"]. *)
Lemma parse_compose_witness :
  parse ("(" :: c_str (str "a+b") ++ [")"]) = Done (str "ab+" ++ [NUL]) /\
  (length (str "ab+") + 1 < MAX_OUTPUT ->
   parse ("~" :: "(" :: c_str (str "a+b") ++ [")"]) =
   Done (str "ab+" ++ ["~"; NUL])) /\
  (forall o,
      operator_info o <> None ->
      length (str "ab+") + length (str "cd=") + 1 < MAX_OUTPUT ->
      parse ("(" :: c_str (str "a+b") ++ ")" :: o :: "(" :: c_str (str "c=d") ++ [")"]) =
      Done (str "ab+" ++ str "cd=" ++ [o; NUL])).
Proof.
  apply (parse_compose (str "a+b") (str "c=d") (str "ab+") (str "cd="));
    reflexivity.
Defined.

(** ** Nothing is read after the terminator *)

Lemma next_char_truncate (p : Parser) :
  next_char (truncate p) = (fst (next_char p), truncate (snd (next_char p))).
Proof.
  destruct (next_char_cases p) as [[Hpk Hnc] | (c & rest & Hc & Hin & Hnc)].
  - rewrite Hnc. cbn [fst snd]. apply next_char_nul.
    unfold peek_next_char, truncate in *. cbn [input set_input].
    destruct (input p) as [| c rest]; [reflexivity |]. cbn in Hpk. subst c.
    reflexivity.
  - rewrite Hnc. cbn [fst snd].
    assert (I : input (truncate p) = c :: c_str rest).
    { unfold truncate. cbn [set_input input]. rewrite Hin. cbn [c_str].
      destruct (Ascii.eqb_spec c NUL); [contradiction | reflexivity]. }
    rewrite (next_char_cons (truncate p) c (c_str rest) I Hc).
    unfold truncate. cbn [set_input input output output_end]. reflexivity.
Qed.

Lemma peek_truncate (p : Parser) :
  peek_next_char (truncate p) = peek_next_char p.
Proof.
  rewrite <- !next_char_fst. now rewrite next_char_truncate.
Qed.

Lemma emit_truncate (p : Parser) (ch : ascii) :
  emit (truncate p) ch = (p' <- emit p ch ;; Done (truncate p')).
Proof.
  unfold emit. cbn [truncate set_input output output_end].
  destruct (_ =? _)%nat; reflexivity.
Qed.

Lemma expect_truncate (p : Parser) (ch : ascii) :
  expect (truncate p) ch = (p' <- expect p ch ;; Done (truncate p')).
Proof.
  unfold expect. rewrite next_char_truncate. destruct (next_char p) as [got q].
  cbn [fst snd]. destruct (Ascii.eqb got ch); reflexivity.
Qed.

Lemma bind_bind {A B C : Type} (m : outcome A) (k : A -> outcome B)
      (h : B -> outcome C) :
  bind (bind m k) h = bind m (fun a => bind (k a) h).
Proof. destruct m; reflexivity. Qed.

Lemma parse_truncate (n : nat) :
  (forall p, parse_primary n (truncate p) =
             (p' <- parse_primary n p ;; Done (truncate p'))) /\
  (forall p prec, parse_expr n (truncate p) prec =
                  (p' <- parse_expr n p prec ;; Done (truncate p'))) /\
  (forall p prec, parse_expr_loop n (truncate p) prec =
                  (p' <- parse_expr_loop n p prec ;; Done (truncate p'))).
Proof.
  induction n as [| n (IHp & IHe & IHl)].
  - repeat split; reflexivity.
  - repeat split.
    + intros p. rewrite !parse_primary_S. cbv zeta.
      rewrite next_char_truncate. cbn [fst snd].
      destruct (Ascii.eqb _ "~").
      { rewrite IHp, !bind_bind. destruct (parse_primary n _); cbn [bind]; auto.
        apply emit_truncate. }
      destruct (Ascii.eqb _ "(").
      { rewrite IHe, !bind_bind. destruct (parse_expr n _ _); cbn [bind]; auto.
        apply expect_truncate. }
      destruct (isalpha _); [apply emit_truncate | reflexivity].
    + intros p prec. rewrite !parse_expr_S, IHp, !bind_bind.
      destruct (parse_primary n p); cbn [bind]; auto.
    + intros p prec. rewrite !parse_expr_loop_S. cbv zeta.
      rewrite peek_truncate, next_char_truncate. cbn [snd].
      destruct (operator_info _) as [opi |]; [| reflexivity].
      destruct (prec >=? _)%Z; [reflexivity |].
      rewrite IHe, !bind_bind. destruct (parse_expr n _ _); cbn [bind]; auto.
      rewrite emit_truncate, !bind_bind. destruct (emit _ _); cbn [bind]; auto.
Qed.

Lemma c_str_length (inp : list ascii) : length (c_str inp) <= length inp.
Proof.
  induction inp as [| c rest IH]; cbn [c_str length]; [lia |].
  destruct (Ascii.eqb c NUL); cbn [length]; lia.
Qed.

Lemma c_str_stored (s tail : list ascii) :
  c_str (c_str s ++ NUL :: tail) = c_str s.
Proof.
  induction s as [| c rest IH]; cbn [c_str app]; [reflexivity |].
  destruct (Ascii.eqb_spec c NUL) as [-> | N]; [reflexivity |].
  cbn [app c_str]. destruct (Ascii.eqb_spec c NUL); [contradiction |].
  now rewrite IH.
Qed.

(** X7.  [parse] depends on the C string of its input only: whatever is
    stored after the first terminator does not change the result. *)
Theorem parse_c_str :
  (forall inp, parse inp = parse (c_str inp)) /\
  (forall s tail, parse (c_str s ++ NUL :: tail) = parse (c_str s)).
Proof.
  assert (G : forall inp, parse inp = parse (c_str inp)).
  { intros inp.
    rewrite <- (parse_with_fuel (fuel_for inp) (c_str inp))
      by (pose proof (c_str_length inp); unfold fuel_for; lia).
    unfold parse, parse_with.
    change (mkParser (c_str inp) [] MAX_OUTPUT)
      with (truncate (mkParser inp [] MAX_OUTPUT)).
    rewrite (proj1 (proj2 (parse_truncate _))), !bind_bind.
    destruct (parse_expr _ _ _) as [p1 | |]; cbn [bind]; auto.
    rewrite expect_truncate, !bind_bind.
    destruct (expect p1 NUL) as [p2 | |]; cbn [bind]; auto.
    rewrite emit_truncate, !bind_bind.
    destruct (emit p2 NUL) as [p3 | |]; cbn [bind]; auto. }
  split; [exact G |]. intros s tail.
  now rewrite (G (c_str s ++ NUL :: tail)), c_str_stored.
Qed.

(** ** Errors and the size of the buffer *)

Section SyntaxErrors.

(** The size of another buffer, and an error that is no overflow. *)
Variable cap : nat.
Variable e : error.
Hypothesis syntax : e <> OutputOverflow.

Lemma either_bind (m : outcome Parser) (k : Parser -> outcome Parser) :
  either e m -> either e (bind m k).
Proof. intros [-> | ->]; [left | right]; reflexivity. Qed.

Lemma either_capped (p2 : Parser) (k : Parser -> outcome Parser) :
  (length (output p2) <= cap -> either e (k (set_output_end p2 cap))) ->
  either e (bind (capped cap p2) k).
Proof.
  intros H. unfold capped.
  destruct (Nat.leb_spec (length (output p2)) cap); cbn [bind]; auto.
  now right.
Qed.

Lemma syntax_error_capacity (n : nat) :
  (forall p, parse_primary n p = Panic e -> length (output p) <= cap ->
             either e (parse_primary n (set_output_end p cap))) /\
  (forall p prec, parse_expr n p prec = Panic e -> length (output p) <= cap ->
                  either e (parse_expr n (set_output_end p cap) prec)) /\
  (forall p prec, parse_expr_loop n p prec = Panic e ->
                  length (output p) <= cap ->
                  either e (parse_expr_loop n (set_output_end p cap) prec)).
Proof.
  induction n as [| n (IHp & IHe & IHl)].
  - repeat split; intros; discriminate.
  - destruct (parse_capacity cap n) as (Cp & Ce & Cl).
    assert (O : forall p, output (snd (next_char p)) = output p).
    { intros p. unfold next_char. destruct (Ascii.eqb _ _); reflexivity. }
    repeat split.
    + intros p H Hc. rewrite parse_primary_S in *. cbv zeta in *.
      rewrite next_char_capacity. cbn [fst snd].
      destruct (Ascii.eqb _ "~").
      { apply bind_Panic in H as [H | (p2 & H1 & H2)].
        - apply either_bind. apply IHp; [exact H | now rewrite O].
        - apply emit_Panic in H2 as [-> _]. contradiction. }
      destruct (Ascii.eqb _ "(").
      { apply bind_Panic in H as [H | (p2 & H1 & H2)].
        - apply either_bind. apply IHe; [exact H | now rewrite O].
        - rewrite (Ce _ _ _ H1) by now rewrite O.
          apply either_capped. intros L. left.
          unfold expect in *. rewrite next_char_capacity.
          destruct (next_char p2) as [got q]. cbn [fst snd].
          destruct (Ascii.eqb got ")"); [discriminate | exact H2]. }
      destruct (isalpha _).
      * apply emit_Panic in H as [-> _]. contradiction.
      * now left.
    + intros p prec H Hc. rewrite parse_expr_S in *.
      apply bind_Panic in H as [H | (p1 & H1 & H2)].
      * apply either_bind. now apply IHp.
      * rewrite (Cp _ _ H1 Hc). apply either_capped. intros L. now apply IHl.
    + intros p prec H Hc. rewrite parse_expr_loop_S in *. cbv zeta in *.
      change (peek_next_char (set_output_end p cap)) with (peek_next_char p).
      destruct (operator_info _) as [opi |]; [| discriminate].
      destruct (prec >=? _)%Z; [discriminate |].
      rewrite next_char_capacity. cbn [snd].
      apply bind_Panic in H as [H | (p2 & H1 & H)].
      { apply either_bind. apply IHe; [exact H | now rewrite O]. }
      rewrite (Ce _ _ _ H1) by now rewrite O.
      apply either_capped. intros L.
      apply bind_Panic in H as [H | (p3 & H2 & H3)].
      { apply emit_Panic in H as [-> _]. contradiction. }
      rewrite (emit_capacity _ _ _ _ H2 L).
      apply either_capped. intros L3. now apply IHl.
Qed.

End SyntaxErrors.

Lemma parse_buffer_Panic (cap : nat) (inp : list ascii) (e : error) :
  parse_buffer cap inp = Panic e ->
  do_parse_expr (mkParser inp [] cap) 0 = Panic e \/
  (exists p1, do_parse_expr (mkParser inp [] cap) 0 = Done p1 /\
              expect p1 NUL = Panic e) \/
  e = OutputOverflow.
Proof.
  unfold parse_buffer. intros H.
  apply bind_Panic in H as [H | (p1 & H1 & H)]; [now left |].
  apply bind_Panic in H as [H | (p2 & H2 & H)]; [right; left; now exists p1 |].
  apply bind_Panic in H as [H | (p3 & _ & H)]; [| discriminate].
  apply emit_Panic in H as [-> _]. now right; right.
Qed.

(** X8.  An unexpected character or a token mismatch does not depend on
    the size of the output buffer: with any other size the same input gives
    the same error, or overflows the output before reaching it; it never
    parses. *)
Theorem syntax_error_any_buffer (cap cap' : nat) (inp : list ascii) (e : error) :
  parse_buffer cap inp = Panic e -> e <> OutputOverflow ->
  parse_buffer cap' inp = Panic e \/ parse_buffer cap' inp = Panic OutputOverflow.
Proof.
  intros H N. unfold parse_buffer at 1 2.
  apply parse_buffer_Panic in H as [H | [(p1 & H1 & H2) | ->]]; [| | contradiction].
  - unfold do_parse_expr in *. cbn [input] in *.
    apply (proj1 (proj2 (syntax_error_capacity cap' e N _))) in H; [| cbn; lia].
    unfold set_output_end in H. cbn [input output] in H.
    destruct H as [-> | ->]; auto.
  - unfold do_parse_expr in *. cbn [input] in *.
    apply (proj1 (proj2 (parse_capacity cap' _))) in H1; [| cbn; lia].
    unfold set_output_end in H1 at 1. cbn [input output] in H1. rewrite H1.
    unfold capped. destruct (_ <=? _)%nat; cbn [bind]; auto.
    left. unfold expect in *. rewrite next_char_capacity.
    destruct (next_char p1) as [got q]. cbn [fst snd].
    destruct (Ascii.eqb got NUL); [discriminate |]. now rewrite H2.
Qed.

(** An instance: an unclosed group, in a buffer of two characters. *)
Lemma syntax_error_any_buffer_witness :
  parse_buffer 2 (str "a+b+(c") = Panic (TokenMismatch ")" NUL) \/
  parse_buffer 2 (str "a+b+(c") = Panic OutputOverflow.
Proof.
  apply (syntax_error_any_buffer MAX_OUTPUT 2 (str "a+b+(c")
           (TokenMismatch ")" NUL)); [reflexivity | discriminate].
Defined.

Lemma c_str_app (consumed rest : list ascii) :
  ~ In NUL consumed -> c_str (consumed ++ rest) = consumed ++ c_str rest.
Proof.
  intros Hn. induction consumed as [| c consumed IH]; cbn [app c_str]; auto.
  destruct (Ascii.eqb_spec c NUL) as [-> | _].
  - contradiction Hn. now left.
  - f_equal. apply IH. intros H. apply Hn. now right.
Qed.

Lemma run_pending (p p' : Parser) (consumed emitted : list ascii) :
  run p p' consumed emitted -> Permutation emitted (emitted_of consumed) ->
  length (output p) + pending p = length (output p') + pending p'.
Proof.
  intros (Hi & Ho & _ & Hn) P. unfold pending.
  rewrite Hi, Ho, c_str_app, emitted_of_app, !length_app by exact Hn.
  rewrite (Permutation_length P). lia.
Qed.

Lemma overflow_pending (n : nat) :
  (forall p, parse_primary n p = Panic OutputOverflow ->
             output_end p < length (output p) + pending p) /\
  (forall p prec, parse_expr n p prec = Panic OutputOverflow ->
                  output_end p < length (output p) + pending p) /\
  (forall p prec, parse_expr_loop n p prec = Panic OutputOverflow ->
                  output_end p < length (output p) + pending p).
Proof.
  induction n as [| n (IHp & IHe & IHl)].
  - repeat split; intros; discriminate.
  - destruct (parse_run n) as (Rp & Re & Rl).
    assert (Adv : forall p c rest, input p = c :: rest -> c <> NUL ->
              pending p = (if grouping c then 0 else 1) + pending (set_input p rest)).
    { intros p c rest Hin Hc. unfold pending. rewrite Hin. cbn [c_str set_input input].
      destruct (Ascii.eqb_spec c NUL); [contradiction |].
      unfold emitted_of. cbn [filter]. destruct (grouping c); reflexivity. }
    repeat split.
    + intros p H.
      destruct (next_char_cases p) as [[Hpk _] | (c & rest & Hc & Hin & Hnc)].
      { rewrite (parse_primary_nul n p Hpk) in H. discriminate. }
      rewrite parse_primary_S, Hnc in H. cbn [fst snd] in H. cbv zeta in H.
      rewrite (Adv p c rest Hin Hc).
      destruct (Ascii.eqb_spec c "~") as [-> | _].
      { cbn [grouping Ascii.eqb Bool.eqb orb].
        apply bind_Panic in H as [H | (p2 & H1 & H2)].
        - apply IHp in H. cbn [set_input output output_end] in *. lia.
        - apply emit_Panic in H2 as [_ Hfull].
          apply Rp in H1 as (c1 & e1 & R & _ & P).
          pose proof (run_pending _ _ _ _ R P) as Q.
          destruct R as (_ & _ & E & _).
          cbn [set_input output output_end] in *. lia. }
      destruct (Ascii.eqb_spec c "(") as [-> | _].
      { apply bind_Panic in H as [H | (p2 & H1 & H2)].
        - apply IHe in H. cbn [set_input output output_end] in *. lia.
        - apply expect_Panic in H2 as [H2 _]. discriminate. }
      destruct (isalpha c) eqn:Ha; [| discriminate].
      apply emit_Panic in H as [_ Hfull].
      rewrite (isalpha_not_grouping c Ha).
      cbn [set_input output output_end] in *. lia.
    + intros p prec H. rewrite parse_expr_S in H.
      apply bind_Panic in H as [H | (p1 & H1 & H2)]; [now apply IHp |].
      apply IHl in H2. apply Rp in H1 as (c1 & e1 & R & _ & P).
      pose proof (run_pending _ _ _ _ R P) as Q.
      destruct R as (_ & _ & E & _). lia.
    + intros p prec H. rewrite parse_expr_loop_S in H. cbv zeta in H.
      destruct (operator_info (peek_next_char p)) as [opi |] eqn:Hop;
        [| discriminate].
      destruct (prec >=? precedence opi)%Z; [discriminate |].
      pose proof (operator_info_not_nul _ _ Hop) as Hnul.
      destruct (next_char_cases p) as [[Hpk _] | (c & rest & Hc & Hin & Hnc)];
        [contradiction |].
      assert (peek_next_char p = c) as Hpk by (unfold peek_next_char; now rewrite Hin).
      rewrite Hpk in *. rewrite Hnc in H. cbn [snd] in H.
      rewrite (Adv p c rest Hin Hc), (operator_not_grouping c opi Hop).
      apply bind_Panic in H as [H | (p2 & H1 & H)].
      { apply IHe in H. cbn [set_input output output_end] in *. lia. }
      apply Re in H1 as (c1 & e1 & R & _ & P).
      pose proof (run_pending _ _ _ _ R P) as Q.
      destruct R as (_ & _ & E & _).
      apply bind_Panic in H as [H | (p3 & H2 & H3)].
      * apply emit_Panic in H as [_ Hfull].
        cbn [set_input output output_end] in *. lia.
      * apply IHl in H3. apply emit_Done in H2 as [_ ->].
        unfold pending in *.
        cbn [set_input set_output input output output_end] in *.
        rewrite length_app in H3. cbn [length] in H3. lia.
Qed.

(** X9.  [parse] overflows the output only on an input string with at
    least [MAX_OUTPUT] characters other than parentheses: an input shorter
    than the buffer never overflows it. *)
Theorem overflow_needs_long_input (inp : list ascii) :
  parse inp = Panic OutputOverflow ->
  MAX_OUTPUT <= length (filter (fun ch => negb (grouping ch)) (c_str inp)) /\
  MAX_OUTPUT <= length inp.
Proof.
  intros H.
  assert (G : MAX_OUTPUT <= length (emitted_of (c_str inp))).
  { apply parse_Panic in H as [H | [(p1 & _ & _ & H) | (p1 & H1 & Hpk & Hc & _)]];
      [| discriminate |].
    - apply (proj1 (proj2 (overflow_pending _))) in H.
      unfold pending in H. cbn [input output output_end length] in H. lia.
    - cbn [top result] in H1. unfold do_parse_expr in H1.
      pose proof (proj1 (proj2 (parse_run _)) _ _ _ H1) as (c & e & R & _ & P).
      pose proof (run_pending _ _ _ _ R P) as Q.
      destruct R as (_ & _ & E & _). unfold pending in Q.
      cbn [input output output_end length] in *. lia. }
  split; [exact G |].
  unfold emitted_of in G.
  pose proof (filter_length_le (fun ch => negb (grouping ch)) (c_str inp)).
  pose proof (c_str_length inp). lia.
Qed.

(** An instance: 1023 ['~'] and a variable. *)
Lemma overflow_needs_long_input_witness :
  MAX_OUTPUT <=
    length (filter (fun ch => negb (grouping ch))
              (c_str (repeat "~" 1023 ++ ["a"]))) /\
  MAX_OUTPUT <= length (repeat "~" 1023 ++ ["a"]).
Proof.
  apply (overflow_needs_long_input (repeat "~" 1023 ++ ["a"])).
  vm_compute. reflexivity.
Defined.

(** ** The character of a token mismatch *)

Lemma stops_zero (ch : ascii) : stops 0 ch = true -> operator_info ch = None.
Proof.
  unfold stops. destruct (operator_info ch) as [opi |] eqn:Ho; [| reflexivity].
  intros H. apply Z.geb_le in H.
  apply operator_info_cases in Ho as [[_ ->] | [[_ ->] | [_ ->]]]; cbn in H; lia.
Qed.

(** X10.  The character that a token mismatch reports as met is never a
    binary operator: [parse_expr] with floor 0 goes on at every operator, so
    that [')'] or the terminator is only ever expected, and missed, before
    another character. *)
Theorem token_mismatch_got (inp : list ascii) (expected got : ascii) :
  parse inp = Panic (TokenMismatch expected got) ->
  (expected = ")" \/ expected = NUL) /\
  got <> expected /\ operator_info got = None.
Proof.
  intros H.
  apply parse_Panic in H as [H | [(p1 & H1 & N & H) | (p1 & _ & _ & _ & H)]];
    [| | discriminate].
  - apply Panic_raised in H as (c' & R & E).
    inversion E as [| p p2 Hpk H2 Hn | | |]; subst.
    repeat split; auto. unfold do_parse_expr in H2.
    apply (proj1 (proj2 (parse_tree _))) in H2 as (t & _ & _ & _ & S & _).
    now apply stops_zero.
  - inversion H; subst. repeat split; auto.
    cbn [top result] in H1. unfold do_parse_expr in H1.
    apply (proj1 (proj2 (parse_tree _))) in H1 as (t & _ & _ & _ & S & _).
    now apply stops_zero.
Qed.

(** An instance: ['~'] after a complete expression. *)
Lemma token_mismatch_got_witness :
  (NUL = ")" \/ NUL = NUL) /\ "~" <> NUL /\ operator_info "~" = None.
Proof.
  apply (token_mismatch_got (str "a+b~c") NUL "~"). reflexivity.
Defined.

(** ** The tests of [main] *)



